(** * binance-data: rate-governed polling of aggregated trades

    A shallow embedding of [main.go]: the request-budget governor
    ([RateLimiter]), the page fetcher ([fetchTrades]), the date partitioner
    ([groupTradesByDate]), the partition writer ([saveToCSV]) and the
    per-symbol worker ([processSymbol]), followed by the properties that the
    design document states about them.

    Conventions.
    - Go's [int] and [int64] are modelled as [Z]; the only arithmetic on
      them that can leave the 64-bit range is the cursor update
      [lastTrade.TradeId + 1], whose wrap-around is written out ([wrap64]).
    - Instants and durations are [Z] numbers of nanoseconds.
    - Go maps are [gmap]s; files are sequences of CSV records. *)

From Stdlib Require Import ZArith List Bool String Ascii Lia.
From Stdlib Require Import DecimalString DecimalPos DecimalZ.
From stdpp Require Import gmap strings list fin_maps.

Local Open Scope Z_scope.

(** ** Budget governor *)

Definition second : Z := 1000000000.

(** [61 * time.Second], the length of one budget window. *)
Definition period : Z := 61 * second.

Record RateLimiter := mkRateLimiter {
  count : Z;
  limitPerMin : Z;
  resetTime : Z
}.

(** [NewRateLimiter(limit)], called at instant [now]. *)
Definition NewRateLimiter (limit now : Z) : RateLimiter :=
  {| count := 0; limitPerMin := limit; resetTime := now + period |}.

(** What one pass through the body of the [for] loop of [Wait] decides:
    either the caller is let through, or it goes round the loop again after
    sleeping for [sleepDuration] (when that is positive). *)
Inductive Verdict :=
  | Permitted
  | Retry (sleepDuration : Z).

(** The lazy reset at the head of the critical section:
    [if now.After(rl.resetTime) { rl.count = 0; rl.resetTime = now.Add(61s) }]. *)
Definition lazy_reset (now : Z) (rl : RateLimiter) : RateLimiter :=
  if resetTime rl <? now
  then {| count := 0; limitPerMin := limitPerMin rl; resetTime := now + period |}
  else rl.

(** One critical section of [Wait], entered when the clock reads [now].
    [count] never overflows: it is only incremented while below
    [limitPerMin]. *)
Definition attempt (now : Z) (rl : RateLimiter) : RateLimiter * Verdict :=
  let rl := lazy_reset now rl in
  if count rl <? limitPerMin rl
  then ({| count := count rl + 1; limitPerMin := limitPerMin rl;
           resetTime := resetTime rl |}, Permitted)
  else (rl, Retry (resetTime rl - now)).

(** [Wait] for one caller. [clock] lists the readings of [time.Now()] that
    the successive passes through the loop observe; the call returns at the
    first pass that is permitted, with the limiter as it leaves it, the
    instant of the grant and the readings not consumed. [None]: the caller
    is still inside [Wait] when the readings run out. *)
Fixpoint Wait (clock : list Z) (rl : RateLimiter)
  : option (RateLimiter * Z * list Z) :=
  match clock with
  | [] => None
  | now :: clock' =>
      match attempt now rl with
      | (rl', Permitted) => Some (rl', now, clock')
      | (rl', Retry _) => Wait clock' rl'
      end
  end.

(** The limiter is shared and every critical section runs under [rl.mu], so
    an execution with any number of callers is a sequence of critical
    sections; [clock] lists the instants they observe, in the order the lock
    is taken. [run_attempts] is the limiter after all of them, [grants] the
    instants at which some [Wait] returned. *)
Fixpoint run_attempts (clock : list Z) (rl : RateLimiter) : RateLimiter :=
  match clock with
  | [] => rl
  | now :: clock' => run_attempts clock' (fst (attempt now rl))
  end.

Fixpoint grants (clock : list Z) (rl : RateLimiter) : list Z :=
  match clock with
  | [] => []
  | now :: clock' =>
      match attempt now rl with
      | (rl', Permitted) => now :: grants clock' rl'
      | (rl', Retry _) => grants clock' rl'
      end
  end.

(** Clock readings never go back ([time.Now()] carries a monotonic
    reading, which [After] and [Sub] compare). *)
Fixpoint nondecreasing (clock : list Z) : bool :=
  match clock with
  | [] => true
  | t :: clock' =>
      match clock' with
      | [] => true
      | t' :: _ => (t <=? t') && nondecreasing clock'
      end
  end.

(** The grants that fall in the window of one period that opens at [a]. *)
Definition in_window (a g : Z) : bool := (a <=? g) && (g <=? a + period).

Definition grants_in_window (a : Z) (gs : list Z) : Z :=
  Z.of_nat (length (List.filter (in_window a) gs)).

(** The sliding-window reading of the cap: no window of one period holds
    more than [limit] grants. *)
Definition sliding_window_cap (limit t0 : Z) (clock : list Z) (a : Z) : Prop :=
  grants_in_window a (grants clock (NewRateLimiter limit t0)) <= limit.

(** A stretch of passes that stays within one budget window: no pass
    after the first finds the boundary, as the first finds or sets it,
    behind it. *)
Definition one_budget_window (stretch : list Z) (rl : RateLimiter) : Prop :=
  match stretch with
  | [] => True
  | t :: rest => forall t', In t' rest -> t' <= resetTime (lazy_reset t rl)
  end.

Definition maxReqPerMin : Z := 1499.
Definition limitPerReq : Z := 1000.

(** Two passes on either side of the first boundary of a limiter created
    at instant 0, and the same with as many callers on each side as the
    program's limit lets through. *)
Definition boundary_clock : list Z := [60 * second; 62 * second].

Definition boundary_burst : list Z :=
  repeat (60 * second) 1499 ++ repeat (62 * second) 1499.

(** ** Trade records and the page fetcher *)

Record AggTrade := mkAggTrade {
  TradeId : Z;
  Price : string;
  Quantity : string;
  FirstId : Z;
  LastId : Z;
  Timestamp : Z;
  IsMaker : bool;
  IsBest : bool
}.

(** The query that [fetchTrades] attaches to the request URL. *)
Record Request := mkRequest {
  q_symbol : string;
  q_limit : Z;
  q_fromId : Z
}.

(** What [client.Do(req)] comes back with: a transport failure (timeout
    included) or a response, of which the code reads the status and the
    body. *)
Inductive DoResult :=
  | TransportError
  | Response (StatusCode : Z) (Body : string).

(** The network as one call sees it: the outcome of [client.Do] for the
    request sent. *)
Definition Client : Type := Request -> DoResult.

Inductive FetchError :=
  | ErrTransport
  | ErrApi (StatusCode : Z) (Body : string)
  | ErrDecode.

Definition StatusOK : Z := 200.

(** The query parameters [symbol], [limit] and [fromId]. *)
Definition fetch_request (symbol : string) (fromId : Z) : Request :=
  {| q_symbol := symbol; q_limit := limitPerReq; q_fromId := fromId |}.

Section Fetcher.

(** [json.NewDecoder(resp.Body).Decode(&trades)], from [encoding/json]:
    the page it decodes, or [None] when it reports an error. *)
Variable json_decode : string -> option (list AggTrade).

(** [fetchTrades(symbol, fromId)] over the network [Do].
    [http.NewRequest] is called on a constant method and URL and does not
    fail. *)
Definition fetchTrades (Do : Client) (symbol : string) (fromId : Z)
  : list AggTrade + FetchError :=
  match Do (fetch_request symbol fromId) with
  | TransportError => inr ErrTransport
  | Response code body =>
      if negb (code =? StatusOK) then inr (ErrApi code body)
      else match json_decode body with
           | None => inr ErrDecode
           | Some trades => inl trades
           end
  end.

End Fetcher.

(** When [fetchTrades] fails, on the outcome [r] of [client.Do]. *)
Definition fetch_fails (json_decode : string -> option (list AggTrade))
    (r : DoResult) : Prop :=
  match r with
  | TransportError => True
  | Response code body => code <> StatusOK \/ json_decode body = None
  end.

(** The same with "not a 2xx success" for the status, as the design
    document has it. *)
Definition fetch_fails_2xx (json_decode : string -> option (list AggTrade))
    (r : DoResult) : Prop :=
  match r with
  | TransportError => True
  | Response code body =>
      ~ (200 <= code <= 299) \/ json_decode body = None
  end.

Definition is_error {A E} (r : A + E) : Prop :=
  match r with inl _ => False | inr _ => True end.

(** A stand-in for the JSON decoder in examples: the bodies listed in
    [table] decode to the pages given there, every other body is
    malformed. *)
Fixpoint decode_table (table : list (string * list AggTrade)) (body : string)
  : option (list AggTrade) :=
  match table with
  | [] => None
  | (b, page) :: table' =>
      if String.eqb b body then Some page else decode_table table' body
  end.

(** ** Date partitioner *)

(** [strconv.FormatInt(i, 10)]. *)
Definition FormatInt (i : Z) : string :=
  NilZero.string_of_int (Z.to_int i).

(** [strconv.FormatBool]. *)
Definition FormatBool (b : bool) : string :=
  if b then "true" else "false".

(** The day, counted from 1970-01-01, that a Unix time in milliseconds
    falls on in UTC. Instants before the epoch round towards the past. *)
Definition unix_day (ms : Z) : Z := ms / 86400000.

(** Year, month and day of the proleptic Gregorian calendar for a day
    number, by eras of 400 years that start on 1 March. *)
Definition civil_from_days (days : Z) : Z * Z * Z :=
  let z := days + 719468 in
  let era := z / 146097 in
  let doe := z - era * 146097 in
  let yoe := (doe - doe / 1460 + doe / 36524 - doe / 146096) / 365 in
  let doy := doe - (365 * yoe + yoe / 4 - yoe / 100) in
  let mp := (5 * doy + 2) / 153 in
  let d := doy - (153 * mp + 2) / 5 + 1 in
  let m := if mp <? 10 then mp + 3 else mp - 9 in
  let y := yoe + era * 400 in
  (if m <=? 2 then y + 1 else y, m, d).

(** The Gregorian calendar, day by day: leap years, lengths of months and
    the date that follows a date. *)
Definition is_leap (y : Z) : bool :=
  (y mod 4 =? 0) && (negb (y mod 100 =? 0) || (y mod 400 =? 0)).

Definition days_in_month (y m : Z) : Z :=
  if m =? 2 then (if is_leap y then 29 else 28)
  else if (m =? 4) || (m =? 6) || (m =? 9) || (m =? 11) then 30
  else 31.

Definition next_date (date : Z * Z * Z) : Z * Z * Z :=
  let '(y, m, d) := date in
  if d <? days_in_month y m then (y, m, d + 1)
  else if m <? 12 then (y, m + 1, 1)
  else (y + 1, 1, 1).

(** A date moved by [k] eras of 400 years. *)
Definition shift_years (k : Z) (date : Z * Z * Z) : Z * Z * Z :=
  let '(y, m, d) := date in (y + 400 * k, m, d).

Definition date_eqb (a b : Z * Z * Z) : bool :=
  let '(y, m, d) := a in
  let '(y', m', d') := b in
  (y =? y') && (m =? m') && (d =? d').

(** Walks [n] days of the calendar from day number [days], whose date is
    [date], and checks at each step that the date of the next day number is
    the date that follows. *)
Fixpoint calendar_agrees (n : nat) (days : Z) (date : Z * Z * Z) : bool :=
  match n with
  | O => true
  | S n' =>
      let date' := next_date date in
      date_eqb (civil_from_days (days + 1)) date'
      && calendar_agrees n' (days + 1) date'
  end.

(** A number in decimal, zero-padded on the left to [width] digits, with a
    leading minus sign when negative, as [time.Format] prints the fields of
    a date. *)
Definition appendInt (x : Z) (width : nat) : string :=
  let digits := FormatInt (Z.abs x) in
  let padded :=
    String.append
      (string_of_list_ascii (repeat "0"%char (width - String.length digits)))
      digits in
  if x <? 0 then String "-" padded else padded.

(** [time.UnixMilli(ms).UTC().Format("2006-01-02")]. *)
Definition dateStr (ms : Z) : string :=
  let '(y, m, d) := civil_from_days (unix_day ms) in
  String.append (appendInt y 4)
    (String "-" (String.append (appendInt m 2) (String "-" (appendInt d 2)))).

(** The row written for one trade. *)
Definition record_of (trade : AggTrade) : list string :=
  [ FormatInt (TradeId trade);
    Price trade;
    Quantity trade;
    FormatInt (Timestamp trade);
    FormatBool (IsMaker trade) ].

(** [groupTradesByDate]: one pass over the page, appending each row to the
    bucket of its date; a date not seen so far reads as the empty bucket. *)
Definition groupTradesByDate (trades : list AggTrade)
  : gmap string (list (list string)) :=
  foldl
    (fun grouped trade =>
       let d := dateStr (Timestamp trade) in
       <[d := default [] (grouped !! d) ++ [record_of trade]]> grouped)
    ∅ trades.

(** Number of rows held by all the buckets together. *)
Definition total_rows (grouped : gmap string (list (list string))) : nat :=
  map_fold (fun _ rows n => (length rows + n)%nat) 0%nat grouped.

(** ** Partition writer *)

Definition header : list string :=
  ["tradeId"; "price"; "quantity"; "timestamp"; "isBuyerMaker"].

(** What can go wrong in the operating system during one [saveToCSV]:
    [os.Stat] failing with an error other than not-exist, [os.OpenFile]
    failing, and the write failing after [k] of the records handed to the
    CSV writer have reached the file. *)
Record OsFaults := mkOsFaults {
  stat_fails : bool;
  open_fails : bool;
  write_fails : option nat
}.

Definition no_faults : OsFaults :=
  {| stat_fails := false; open_fails := false; write_fails := None |}.

Inductive SaveError :=
  | ErrOpen
  | ErrWrite.

(** [os.IsNotExist(err)] for the [err] of [os.Stat(filePath)]: true exactly
    when [Stat] reports that the path does not exist. *)
Definition isNewFile (faults : OsFaults) (fs : gmap string (list (list string)))
    (filePath : string) : bool :=
  if stat_fails faults then false
  else match fs !! filePath with
       | None => true
       | Some _ => false
       end.

(** [saveToCSV(filePath, records)] on the file system [fs], a map from
    paths to the CSV records each file holds. Opening with
    [O_APPEND|O_CREATE] creates a missing file; everything written goes to
    the end of the file. *)
Definition saveToCSV (faults : OsFaults) (filePath : string)
    (records : list (list string)) (fs : gmap string (list (list string)))
  : gmap string (list (list string)) * option SaveError :=
  let new := isNewFile faults fs filePath in
  if open_fails faults then (fs, Some ErrOpen)
  else
    let old := default [] (fs !! filePath) in
    let output := (if new then [header] else []) ++ records in
    match write_fails faults with
    | Some k => (<[filePath := old ++ take k output]> fs, Some ErrWrite)
    | None => (<[filePath := old ++ output]> fs, None)
    end.

(** Successive successful calls of [saveToCSV] on one path, one per batch. *)
Fixpoint save_all (filePath : string) (batches : list (list (list string)))
    (fs : gmap string (list (list string)))
  : gmap string (list (list string)) :=
  match batches with
  | [] => fs
  | records :: batches' =>
      save_all filePath batches' (fst (saveToCSV no_faults filePath records fs))
  end.

(** How many of the records of a file are the header. *)
Definition header_rows (file : list (list string)) : nat :=
  length (filter (fun row => row = header) file).

(** ** Symbol worker *)

Definition wrap64 (z : Z) : Z := (z + 2 ^ 63) mod 2 ^ 64 - 2 ^ 63.

Definition MaxInt64 : Z := 2 ^ 63 - 1.

Inductive Status :=
  | RUNNING
  | DONE
  | ABORTED.

Record Worker := mkWorker {
  status : Status;
  fromId : Z;
  requests : list Request;
  files : gmap string (list (list string));
  os_script : list OsFaults;
  save_errors : list string
}.

(** The worker after sending [req]. *)
Definition sent (req : Request) (w : Worker) : Worker :=
  {| status := status w; fromId := fromId w;
     requests := requests w ++ [req];
     files := files w; os_script := os_script w;
     save_errors := save_errors w |}.

(** The worker after leaving its loop through [break]. *)
Definition finished (w : Worker) : Worker :=
  {| status := DONE; fromId := fromId w; requests := requests w;
     files := files w; os_script := os_script w;
     save_errors := save_errors w |}.

(** The worker after the assignment [fromId = id]. *)
Definition advanced (id : Z) (w : Worker) : Worker :=
  {| status := status w; fromId := id; requests := requests w;
     files := files w; os_script := os_script w;
     save_errors := save_errors w |}.

(** The worker after one [saveToCSV] on [filePath] that left the file
    system as [fs'] and returned [err]. *)
Definition saved (filePath : string)
    (fs' : gmap string (list (list string))) (err : option SaveError)
    (w : Worker) : Worker :=
  {| status := status w; fromId := fromId w; requests := requests w;
     files := fs';
     os_script := tl (os_script w);
     save_errors :=
       match err with
       | Some _ => save_errors w ++ [filePath]
       | None => save_errors w
       end |}.

(** [fmt.Sprintf("%s/%s.csv", symbol, date)]. *)
Definition partition_path (symbol date : string) : string :=
  String.append symbol (String "/" (String.append date ".csv")).

(** The loop over the buckets of one page: each is appended to its file; a
    failure is reported and the loop goes on with the next bucket. The
    faults that the successive calls meet are read off [os_script]. *)
Fixpoint save_partitions (symbol : string)
    (parts : list (string * list (list string))) (w : Worker) : Worker :=
  match parts with
  | [] => w
  | (date, records) :: parts' =>
      let filePath := partition_path symbol date in
      let faults := hd no_faults (os_script w) in
      let '(fs', err) := saveToCSV faults filePath records (files w) in
      save_partitions symbol parts' (saved filePath fs' err w)
  end.

Section Worker.

Variable json_decode : string -> option (list AggTrade).
Variable symbol : string.

(** The [for] loop of [processSymbol]. [net] lists the outcomes of the
    [client.Do] of the successive fetch calls; the worker is still
    [RUNNING], inside its next iteration, when [net] runs out. Each
    iteration first goes through [rl.Wait()], which is taken to return;
    after a failed fetch the worker sleeps five seconds and goes round
    again. *)
Fixpoint worker_loop (net : list DoResult) (w : Worker) : Worker :=
  match net with
  | [] => w
  | r :: net' =>
      let w := sent (fetch_request symbol (fromId w)) w in
      match fetchTrades json_decode (fun _ => r) symbol (fromId w) with
      | inr _ => worker_loop net' w
      | inl trades =>
          match trades with
          | [] => finished w
          | first :: _ =>
              let groupedTrades := groupTradesByDate trades in
              let w := save_partitions symbol (map_to_list groupedTrades) w in
              let lastTrade := List.last trades first in
              worker_loop net' (advanced (wrap64 (TradeId lastTrade + 1)) w)
          end
      end
  end.

(** [processSymbol(symbol, rl)]. [mkdir_ok] tells whether
    [os.MkdirAll(symbol, os.ModePerm)] succeeds; [fs] is the file system
    the worker finds and [faults] the faults its writes will meet. *)
Definition processSymbol (mkdir_ok : bool) (net : list DoResult)
    (faults : list OsFaults) (fs : gmap string (list (list string)))
  : Worker :=
  let w :=
    {| status := RUNNING; fromId := 0; requests := [];
       files := fs; os_script := faults; save_errors := [] |} in
  if mkdir_ok then worker_loop net w
  else
    {| status := ABORTED; fromId := 0; requests := [];
       files := fs; os_script := faults; save_errors := [] |}.

End Worker.

(** The status of a worker that has left [processSymbol]. *)
Definition terminated (w : Worker) : Prop := status w <> RUNNING.

Section Source.

Variable json_decode : string -> option (list AggTrade).

(** The page that a fetch returns on the outcome [r]; neither the symbol
    nor the cursor of the call bears on it once [r] is fixed. *)
Definition page_of (r : DoResult) : list AggTrade + FetchError :=
  fetchTrades json_decode (fun _ => r) EmptyString 0.

Definition empty_page (r : DoResult) : bool :=
  match page_of r with
  | inl [] => true
  | _ => false
  end.

(** The cursor that a running worker holding [cursor] is left with by
    one more outcome. *)
Definition next_cursor (cursor : Z) (r : DoResult) : Z :=
  match page_of r with
  | inl (first :: rest) =>
      wrap64 (TradeId (List.last (first :: rest) first) + 1)
  | _ => cursor
  end.

(** A source whose pages follow the cursor: the last record of every
    non-empty page has an id no less than the cursor of the request it
    answers minus one, and below the greatest [int64]. *)
Fixpoint pages_follow_cursor (cursor : Z) (net : list DoResult) : bool :=
  match net with
  | [] => true
  | r :: net' =>
      match page_of r with
      | inl (first :: rest) =>
          let id := TradeId (List.last (first :: rest) first) in
          (cursor - 1 <=? id) && (id <? MaxInt64)
          && pages_follow_cursor (id + 1) net'
      | _ => pages_follow_cursor cursor net'
      end
  end.

End Source.

(** The claims of the design document about the worker, each as a
    statement about one run. [Section Source] explains [empty_page].

    Termination: a worker that has terminated has fetched an empty page,
    and that fetch was its last. *)
Definition terminates_on_empty_page_only
    (json_decode : string -> option (list AggTrade)) (symbol : string)
    (mkdir_ok : bool) (net : list DoResult) (faults : list OsFaults)
    (fs : gmap string (list (list string))) : Prop :=
  let w := processSymbol json_decode symbol mkdir_ok net faults fs in
  terminated w ->
  exists pre r post,
    net = pre ++ r :: post /\ empty_page json_decode r = true /\
    length (requests w) = S (length pre).

(** Monotonicity: the cursors of the successive fetch calls, and the cursor
    the worker is left with, never decrease. *)
Definition cursor_never_decreases
    (json_decode : string -> option (list AggTrade)) (symbol : string)
    (net : list DoResult) : Prop :=
  let w := processSymbol json_decode symbol true net [] ∅ in
  nondecreasing (map q_fromId (requests w) ++ [fromId w]) = true.

(** A trade known by its id alone, and pages of one such trade. *)
Definition trade_with_id (id : Z) : AggTrade :=
  mkAggTrade id "1800.50" "0.25" id id 1700000000000 true true.

Definition id_decode : string -> option (list AggTrade) :=
  decode_table
    [ ("[]", []);
      ("ten", [trade_with_id 10]);
      ("three", [trade_with_id 3]);
      ("max", [trade_with_id 9223372036854775807]) ].

(** The end-to-end scenario of the design document: a source that returns
    two trades of 14 November 2023 and then an empty page. *)
Definition scenario_page : list AggTrade :=
  [ mkAggTrade 1 "1800.50" "0.25" 1 1 1700000000000 true true;
    mkAggTrade 2 "1801.00" "0.40" 2 3 1700003600000 false true ].

Definition scenario_decode : string -> option (list AggTrade) :=
  decode_table [("[]", []); ("page", scenario_page)].

Definition scenario_net : list DoResult :=
  [Response 200 "page"; Response 200 "[]"].

(** ** Further notions

    How many times the window can still be reset by passes that read the
    clock at [T] at the latest, when its boundary is at [R]: a pass resets
    only after the boundary, and sets the next one a period later. *)
Definition windows_left (T R : Z) : Z :=
  if T <=? R then 0 else (T - R - 1) / period + 1.

(** The symbols that [main] starts a worker for. *)
Definition symbols : list string := ["ETHUSDC"; "ETHUSDT"; "ETHBTC"].

(** The paths a worker for [symbol] writes to: the partition files of its
    directory. *)
Definition own_path (symbol filePath : string) : Prop :=
  exists date, filePath = partition_path symbol date.

Fixpoint no_slash (s : string) : bool :=
  match s with
  | EmptyString => true
  | String c s' => negb (Ascii.eqb c "/") && no_slash s'
  end.


(** All of a worker but its files. *)
Definition control (w : Worker)
  : Status * Z * list Request * list OsFaults * list string :=
  (status w, fromId w, requests w, os_script w, save_errors w).

(** What a file holds after the rows [rows] of one or more batches have
    been handed to [saveToCSV] without a fault, [file] being what was
    there: nothing changes without rows; with rows, a missing file is
    created with the header. *)
Definition extended (file : option (list (list string)))
    (rows : list (list string)) : option (list (list string)) :=
  match rows with
  | [] => file
  | _ :: _ =>
      match file with
      | None => Some (header :: rows)
      | Some old => Some (old ++ rows)
      end
  end.

Section Fetched.

Variable json_decode : string -> option (list AggTrade).

(** The trades of the pages that a worker processes on the outcomes [net]:
    failed fetches bring nothing, and nothing is fetched after the first
    empty page. *)
Fixpoint fetched (net : list DoResult) : list AggTrade :=
  match net with
  | [] => []
  | r :: net' =>
      match page_of json_decode r with
      | inr _ => fetched net'
      | inl [] => []
      | inl (first :: rest) => (first :: rest) ++ fetched net'
      end
  end.

End Fetched.

(** A date of the calendar: a month from 1 to 12 and a day that the month
    has in that year. *)
Definition valid_date (date : Z * Z * Z) : bool :=
  let '(y, m, d) := date in
  (1 <=? m) && (m <=? 12) && (1 <=? d) && (d <=? days_in_month y m).

(** The order of dates: by year, then month, then day. *)
Definition date_lt (a b : Z * Z * Z) : Prop :=
  let '(y, m, d) := a in
  let '(y', m', d') := b in
  y < y' \/ (y = y' /\ (m < m' \/ (m = m' /\ d < d'))).

(** Reading a decimal number back, leading zeros allowed. *)
Definition parse_int (s : string) : option Z :=
  option_map Z.of_int (NilZero.int_of_string s).

(** [P] holds of the [n] integers from [z] on. *)
Fixpoint checked_from (n : nat) (z : Z) (P : Z -> bool) : bool :=
  match n with
  | O => true
  | S n' => P z && checked_from n' (z + 1) P
  end.

(** [k] zeros, as [appendInt] pads with. *)
Definition zeros (k : nat) : string :=
  string_of_list_ascii (repeat "0"%char k).

Definition two_chars (n : Z) : bool :=
  Nat.eqb (String.length (appendInt n 2)) 2.

(** All of a worker but the requests it has sent. *)
Definition outcome (w : Worker)
  : Status * Z * gmap string (list (list string)) * list OsFaults
    * list string :=
  (status w, fromId w, files w, os_script w, save_errors w).

(** The fetch on this outcome of [client.Do] succeeds. *)
Definition fetch_ok (json_decode : string -> option (list AggTrade))
    (r : DoResult) : bool :=
  match page_of json_decode r with
  | inl _ => true
  | inr _ => false
  end.

(** The workers that [main] starts, run one after the other in the order
    of [order] on one file system; each symbol has its own network
    outcomes and faults. *)
Definition run_workers (json_decode : string -> option (list AggTrade))
    (mkdir_of : string -> bool) (net_of : string -> list DoResult)
    (faults_of : string -> list OsFaults) (order : list string)
    (fs : gmap string (list (list string)))
  : gmap string (list (list string)) :=
  foldl
    (fun fs symbol =>
       files (processSymbol json_decode symbol (mkdir_of symbol)
                (net_of symbol) (faults_of symbol) fs))
    fs order.

(** * Properties *)

(** ** Budget governor *)

Lemma period_pos : 0 < period.
Proof. reflexivity. Qed.

Lemma limitPerMin_lazy_reset now rl :
  limitPerMin (lazy_reset now rl) = limitPerMin rl.
Proof. unfold lazy_reset. destruct (resetTime rl <? now); reflexivity. Qed.

Lemma limitPerMin_attempt now rl :
  limitPerMin (fst (attempt now rl)) = limitPerMin rl.
Proof.
  unfold attempt. destruct (count _ <? _); simpl;
    apply limitPerMin_lazy_reset.
Qed.

Lemma limitPerMin_run_attempts clock rl :
  limitPerMin (run_attempts clock rl) = limitPerMin rl.
Proof.
  revert rl. induction clock as [|now clock IH]; intros rl; simpl.
  - reflexivity.
  - rewrite IH. apply limitPerMin_attempt.
Qed.

(** The two ways a pass can go, with the limiter it leaves. *)
Lemma attempt_cases now rl :
  let rl1 := lazy_reset now rl in
  (count rl1 < limitPerMin rl /\
   attempt now rl =
     ({| count := count rl1 + 1; limitPerMin := limitPerMin rl;
         resetTime := resetTime rl1 |}, Permitted))
  \/
  (limitPerMin rl <= count rl1 /\
   attempt now rl = (rl1, Retry (resetTime rl1 - now))).
Proof.
  intros rl1. unfold attempt. fold rl1.
  replace (limitPerMin rl1) with (limitPerMin rl)
    by (symmetry; apply limitPerMin_lazy_reset).
  destruct (Z.ltb_spec (count rl1) (limitPerMin rl)); [left | right]; auto.
Qed.

Lemma lazy_reset_cases now rl :
  (resetTime rl < now /\
   lazy_reset now rl =
     {| count := 0; limitPerMin := limitPerMin rl; resetTime := now + period |})
  \/ (now <= resetTime rl /\ lazy_reset now rl = rl).
Proof.
  unfold lazy_reset.
  destruct (Z.ltb_spec (resetTime rl) now); [left | right]; auto.
Qed.

Lemma count_lazy_reset_nonneg now rl :
  0 <= count rl -> 0 <= count (lazy_reset now rl).
Proof.
  destruct (lazy_reset_cases now rl) as [[_ ->]|[_ ->]]; simpl; lia.
Qed.

Lemma count_attempt_nonneg now rl :
  0 <= count rl -> 0 <= count (fst (attempt now rl)).
Proof.
  intros H. pose proof (count_lazy_reset_nonneg now rl H).
  destruct (attempt_cases now rl) as [[_ ->]|[_ ->]]; simpl; lia.
Qed.

Lemma count_lazy_reset_le now rl :
  0 <= limitPerMin rl -> count rl <= limitPerMin rl ->
  count (lazy_reset now rl) <= limitPerMin rl.
Proof.
  destruct (lazy_reset_cases now rl) as [[_ ->]|[_ ->]]; simpl; lia.
Qed.

Lemma count_attempt_le now rl :
  0 <= limitPerMin rl -> count rl <= limitPerMin rl ->
  count (fst (attempt now rl)) <= limitPerMin rl.
Proof.
  intros H0 H. pose proof (count_lazy_reset_le now rl H0 H).
  destruct (attempt_cases now rl) as [[? ->]|[? ->]]; simpl; lia.
Qed.

(** The invariant of the limiter: a count between zero and the limit. *)
Lemma run_attempts_invariant clock rl :
  0 <= limitPerMin rl -> 0 <= count rl <= limitPerMin rl ->
  0 <= count (run_attempts clock rl) <= limitPerMin rl.
Proof.
  revert rl. induction clock as [|now clock IH]; intros rl H0 H; simpl.
  - exact H.
  - rewrite <- (limitPerMin_attempt now rl). apply IH.
    + rewrite limitPerMin_attempt. exact H0.
    + rewrite limitPerMin_attempt. split.
      * apply count_attempt_nonneg; lia.
      * apply count_attempt_le; lia.
Qed.

Lemma run_attempts_count_nonneg clock rl :
  0 <= count rl -> 0 <= count (run_attempts clock rl).
Proof.
  revert rl. induction clock as [|now clock IH]; intros rl H; simpl.
  - exact H.
  - apply IH, count_attempt_nonneg, H.
Qed.

Lemma nondecreasing_cons t clock :
  nondecreasing (t :: clock) = true ->
  nondecreasing clock = true /\ forall t', In t' clock -> t <= t'.
Proof.
  revert t. induction clock as [|u clock IH]; intros t H.
  - split; [reflexivity | intros ? []].
  - simpl in H. apply andb_true_iff in H as [Htu Hrest].
    apply Z.leb_le in Htu. split; [exact Hrest|].
    intros t' [<-|Hin]; [exact Htu|].
    destruct (IH u Hrest) as [_ Hu]. specialize (Hu t' Hin). lia.
Qed.

Lemma grants_in_window_nil a : grants_in_window a [] = 0.
Proof. reflexivity. Qed.

Lemma grants_in_window_cons a g gs :
  grants_in_window a (g :: gs) =
  (if in_window a g then 1 else 0) + grants_in_window a gs.
Proof.
  unfold grants_in_window. simpl. destruct (in_window a g); simpl; lia.
Qed.

Lemma grants_in_window_nonneg a gs : 0 <= grants_in_window a gs.
Proof. unfold grants_in_window. lia. Qed.

Lemma grants_step now clock rl :
  grants (now :: clock) rl =
  match snd (attempt now rl) with
  | Permitted => now :: grants clock (fst (attempt now rl))
  | Retry _ => grants clock (fst (attempt now rl))
  end.
Proof. simpl. destruct (attempt now rl) as [rl' [|d]]; reflexivity. Qed.

(** Passes that come after the window has closed grant nothing inside it. *)
Lemma grants_after_window a clock rl :
  (forall t, In t clock -> a + period < t) ->
  grants_in_window a (grants clock rl) = 0.
Proof.
  revert rl. induction clock as [|now clock IH]; intros rl Hlate.
  - reflexivity.
  - rewrite grants_step.
    assert (Hnow : in_window a now = false).
    { unfold in_window. apply andb_false_iff. right. apply Z.leb_gt.
      apply Hlate. left. reflexivity. }
    assert (Hrest : forall t, In t clock -> a + period < t).
    { intros t Ht. apply Hlate. right. exact Ht. }
    destruct (snd (attempt now rl)).
    + rewrite grants_in_window_cons, Hnow, IH by exact Hrest. reflexivity.
    + apply IH, Hrest.
Qed.

(** While the boundary of the current budget window lies beyond the
    sliding window, the grants that fall in the sliding window all come out
    of the current budget. *)
Lemma grants_current_budget a clock rl :
  nondecreasing clock = true ->
  a + period <= resetTime rl ->
  grants_in_window a (grants clock rl) <= Z.max 0 (limitPerMin rl - count rl).
Proof.
  revert rl. induction clock as [|now clock IH]; intros rl Hmono Hbound.
  - rewrite grants_in_window_nil. lia.
  - destruct (nondecreasing_cons _ _ Hmono) as [Hmono' Hlater].
    destruct (Z.lt_ge_cases (resetTime rl) now) as [Hreset|Hsame].
    + rewrite grants_after_window; [lia|].
      intros t [<-|Hin]; [lia|]. specialize (Hlater t Hin). lia.
    + rewrite grants_step.
      destruct (lazy_reset_cases now rl) as [[? _]|[_ Hrl1]]; [lia|].
      destruct (attempt_cases now rl) as [[Hlt ->]|[Hge ->]];
        rewrite Hrl1 in *; simpl.
      * rewrite grants_in_window_cons.
        match goal with |- _ + grants_in_window a (grants clock ?r) <= _ =>
          specialize (IH r Hmono' Hbound) end.
        simpl in IH. destruct (in_window a now); lia.
      * specialize (IH rl Hmono' Hbound). lia.
Qed.

(** Once the clock has entered the sliding window, at most one reset can
    still happen inside it: the grants come out of the current budget and
    of one more. *)
Lemma grants_two_budgets a clock rl :
  nondecreasing clock = true ->
  (forall t, In t clock -> a <= t) ->
  grants_in_window a (grants clock rl) <=
  Z.max 0 (limitPerMin rl - count rl) + Z.max 0 (limitPerMin rl).
Proof.
  revert rl. induction clock as [|now clock IH]; intros rl Hmono Hin.
  - rewrite grants_in_window_nil. lia.
  - destruct (nondecreasing_cons _ _ Hmono) as [Hmono' Hlater].
    assert (Hnow : a <= now) by (apply Hin; left; reflexivity).
    assert (Hin' : forall t, In t clock -> a <= t).
    { intros t Ht. apply Hin. right. exact Ht. }
    rewrite grants_step.
    destruct (lazy_reset_cases now rl) as [[Hreset Hrl1]|[Hsame Hrl1]].
    + (* a reset inside the sliding window: the new boundary is beyond it *)
      destruct (attempt_cases now rl) as [[Hlt ->]|[Hge ->]];
        rewrite Hrl1 in *; simpl in *.
      * rewrite grants_in_window_cons.
        match goal with |- _ + grants_in_window a (grants clock ?r) <= _ =>
          pose proof (grants_current_budget a clock r Hmono') as Hcur end.
        simpl in Hcur. specialize (Hcur ltac:(lia)).
        destruct (in_window a now); lia.
      * match goal with |- grants_in_window a (grants clock ?r) <= _ =>
          pose proof (grants_current_budget a clock r Hmono') as Hcur end.
        simpl in Hcur. specialize (Hcur ltac:(lia)). lia.
    + destruct (attempt_cases now rl) as [[Hlt ->]|[Hge ->]];
        rewrite Hrl1 in *; simpl in *.
      * rewrite grants_in_window_cons.
        match goal with |- _ + grants_in_window a (grants clock ?r) <= _ =>
          specialize (IH r Hmono' Hin') end.
        simpl in IH. destruct (in_window a now); lia.
      * specialize (IH rl Hmono' Hin'). lia.
Qed.

(** No sliding window of one period sees more than two budgets. *)
Lemma grants_sliding_window a clock rl :
  nondecreasing clock = true ->
  0 <= count rl ->
  grants_in_window a (grants clock rl) <= 2 * Z.max 0 (limitPerMin rl).
Proof.
  revert rl. induction clock as [|now clock IH]; intros rl Hmono Hcount.
  - rewrite grants_in_window_nil. lia.
  - destruct (Z.lt_ge_cases now a) as [Hbefore|Hinside].
    + destruct (nondecreasing_cons _ _ Hmono) as [Hmono' _].
      rewrite grants_step.
      assert (Hout : in_window a now = false).
      { unfold in_window. apply andb_false_iff. left. apply Z.leb_gt. lia. }
      pose proof (count_attempt_nonneg now rl Hcount) as Hcount'.
      pose proof (IH (fst (attempt now rl)) Hmono' Hcount') as IH'.
      rewrite limitPerMin_attempt in IH'.
      destruct (snd (attempt now rl)).
      * rewrite grants_in_window_cons, Hout. lia.
      * exact IH'.
    + pose proof (grants_two_budgets a (now :: clock) rl Hmono) as H2.
      destruct (nondecreasing_cons _ _ Hmono) as [_ Hlater].
      assert (Hall : forall t, In t (now :: clock) -> a <= t).
      { intros t [<-|Hin]; [lia|]. specialize (Hlater t Hin). lia. }
      specialize (H2 Hall). lia.
Qed.

(** Without a reset, the grants come out of what is left of the budget. *)
Lemma grants_no_reset clock rl :
  (forall t, In t clock -> t <= resetTime rl) ->
  Z.of_nat (length (grants clock rl)) <= Z.max 0 (limitPerMin rl - count rl).
Proof.
  revert rl. induction clock as [|now clock IH]; intros rl Hin.
  - simpl. lia.
  - assert (Hnow : now <= resetTime rl) by (apply Hin; left; reflexivity).
    assert (Hin' : forall t, In t clock -> t <= resetTime rl).
    { intros t Ht. apply Hin. right. exact Ht. }
    rewrite grants_step.
    destruct (lazy_reset_cases now rl) as [[? _]|[_ Hrl1]]; [lia|].
    destruct (attempt_cases now rl) as [[Hlt ->]|[Hge ->]];
      rewrite Hrl1 in *; simpl fst; simpl snd; cbv iota.
    + match goal with |- context [grants clock ?r] =>
        specialize (IH r Hin') end.
      simpl in IH. simpl length. lia.
    + specialize (IH rl Hin'). lia.
Qed.

(** One budget window grants at most [limitPerMin] times. *)
Lemma grants_one_budget_window stretch rl :
  0 <= count rl ->
  one_budget_window stretch rl ->
  Z.of_nat (length (grants stretch rl)) <= Z.max 0 (limitPerMin rl).
Proof.
  intros Hcount Hwin. destruct stretch as [|now rest].
  - simpl. lia.
  - simpl in Hwin. rewrite grants_step.
    pose proof (count_lazy_reset_nonneg now rl Hcount) as Hc1.
    destruct (attempt_cases now rl) as [[Hlt ->]|[Hge ->]];
      simpl fst; simpl snd; cbv iota.
    + match goal with |- context [grants rest ?r] =>
        pose proof (grants_no_reset rest r Hwin) as Hrest end.
      simpl in Hrest. simpl length. lia.
    + pose proof (grants_no_reset rest _ Hwin) as Hrest.
      rewrite limitPerMin_lazy_reset in Hrest. lia.
Qed.

(** [Wait] returns from the first pass that is permitted. *)
Lemma Wait_Some clock rl rl' now rest :
  Wait clock rl = Some (rl', now, rest) ->
  exists pre,
    clock = pre ++ now :: rest /\
    grants pre rl = [] /\
    attempt now (run_attempts pre rl) = (rl', Permitted).
Proof.
  revert rl. induction clock as [|t clock IH]; intros rl H; [discriminate|].
  simpl in H. destruct (attempt t rl) as [rl1 [|d]] eqn:Hatt.
  - injection H as <- <- <-. exists []. simpl. auto.
  - destruct (IH rl1 H) as (pre & -> & Hgr & Hlast).
    exists (t :: pre). simpl. rewrite Hatt. simpl. auto.
Qed.

Lemma attempt_Permitted now rl rl' :
  attempt now rl = (rl', Permitted) ->
  count (lazy_reset now rl) < limitPerMin rl /\
  count rl' = count (lazy_reset now rl) + 1 /\
  limitPerMin rl' = limitPerMin rl /\
  resetTime rl' = resetTime (lazy_reset now rl).
Proof.
  intros H. destruct (attempt_cases now rl) as [[Hlt Heq]|[_ Heq]];
    rewrite Heq in H; [|discriminate].
  injection H as <-. simpl. auto.
Qed.

(** A caller of [Wait] gets through as soon as the clock has passed the
    boundary, if not before, whenever the limit is positive. *)
Lemma Wait_returns clock rl t :
  0 < limitPerMin rl -> In t clock -> resetTime rl < t ->
  exists rl' now rest, Wait clock rl = Some (rl', now, rest).
Proof.
  intros Hlim. revert rl Hlim.
  induction clock as [|now clock IH]; intros rl Hlim Hin Hlate; [destruct Hin|].
  simpl. destruct (attempt_cases now rl) as [[Hlt ->]|[Hge Heq]].
  - eauto.
  - rewrite Heq.
    destruct (lazy_reset_cases now rl) as [[Hreset Hrl1]|[Hsame Hrl1]];
      rewrite Hrl1 in *; simpl in Hge; [lia|].
    destruct Hin as [->|Hin]; [lia|].
    apply (IH rl Hlim Hin Hlate).
Qed.

(** C1, as the design document states it, fails: two callers, a limit of
    one request per window, a limiter created at instant 0. The first
    caller is let through at 60s, inside the first budget window; the
    second at 62s, which is past the boundary at 61s and so opens a new
    budget. The window of one period that opens at 60s holds two grants.
    The same happens with the limit the program runs with. *)
Lemma sliding_window_cap_exceeded :
  nondecreasing boundary_clock = true /\
  grants boundary_clock (NewRateLimiter 1 0) = boundary_clock /\
  ~ sliding_window_cap 1 0 boundary_clock (60 * second) /\
  nondecreasing boundary_burst = true /\
  ~ sliding_window_cap maxReqPerMin 0 boundary_burst (60 * second).
Proof.
  unfold sliding_window_cap.
  split; [reflexivity|]. split; [reflexivity|].
  split; [vm_compute; intros H; apply H; reflexivity|].
  split; [vm_compute; reflexivity|].
  vm_compute. intros H; apply H; reflexivity.
Qed.

(** C1 (amended). For any sequence of passes through the critical section
    of [Wait] whose clock readings never go back, made by any number of
    callers on a limiter created with a non-negative limit:
    - a stretch of passes that stays within one budget window sees at most
      [limitPerMin] grants;
    - a sliding window of one period sees at most twice [limitPerMin]
      grants;
    - [Wait] returns from the first pass at which the count of the current
      budget window, after the lazy reset, is below [limitPerMin], and
      takes that slot. *)
Theorem governor_budget_cap (limit t0 : Z) (clock : list Z) :
  0 <= limit ->
  nondecreasing clock = true ->
  (forall pre stretch post,
     clock = pre ++ stretch ++ post ->
     one_budget_window stretch (run_attempts pre (NewRateLimiter limit t0)) ->
     Z.of_nat (length (grants stretch
       (run_attempts pre (NewRateLimiter limit t0)))) <= limit)
  /\ (forall a,
     grants_in_window a (grants clock (NewRateLimiter limit t0)) <= 2 * limit)
  /\ (forall pre rest rl' now rest',
     clock = pre ++ rest ->
     Wait rest (run_attempts pre (NewRateLimiter limit t0))
       = Some (rl', now, rest') ->
     exists retried,
       rest = retried ++ now :: rest' /\
       grants retried (run_attempts pre (NewRateLimiter limit t0)) = [] /\
       let rl := run_attempts (pre ++ retried) (NewRateLimiter limit t0) in
       count (lazy_reset now rl) < limit /\
       count rl' = count (lazy_reset now rl) + 1).
Proof.
  intros Hlimit Hmono. split; [|split].
  - intros pre stretch post _ Hwin.
    pose proof (grants_one_budget_window stretch _
      (run_attempts_count_nonneg pre (NewRateLimiter limit t0) (Z.le_refl 0))
      Hwin) as H.
    rewrite limitPerMin_run_attempts in H. simpl in H. lia.
  - intros a.
    pose proof (grants_sliding_window a clock (NewRateLimiter limit t0)
      Hmono (Z.le_refl 0)) as H.
    simpl in H. lia.
  - intros pre rest rl' now rest' _ HWait.
    destruct (Wait_Some _ _ _ _ _ HWait) as (retried & -> & Hgr & Hatt).
    exists retried. split; [reflexivity|]. split; [exact Hgr|].
    cbv zeta.
    assert (Hrun : forall l1 l2 rl,
      run_attempts (l1 ++ l2) rl = run_attempts l2 (run_attempts l1 rl)).
    { induction l1 as [|x l1 IHl]; intros l2 rl; simpl; [reflexivity|apply IHl]. }
    rewrite Hrun.
    destruct (attempt_Permitted _ _ _ Hatt) as (Hlt & Hcnt & _ & _).
    rewrite !limitPerMin_run_attempts in Hlt. simpl in Hlt. auto.
Qed.

Lemma governor_budget_cap_witness :
  0 <= 1 /\
  nondecreasing boundary_clock = true /\
  grants_in_window (60 * second)
    (grants boundary_clock (NewRateLimiter 1 0)) <= 2 * 1.
Proof.
  split; [lia|]. split; [reflexivity|].
  apply (governor_budget_cap 1 0 boundary_clock); [lia | reflexivity].
Defined.

(** C2. In every state that the limiter reaches from its creation, after a
    [Wait] call has returned the count is positive and no greater than
    [limitPerMin] (and with a non-negative limit the count is within the
    limit in every reachable state). The window is reset lazily: the first
    pass that observes an instant after the boundary sets the count to
    zero and the boundary to that instant plus the period, before it
    decides on the grant; a pass that observes an instant up to the
    boundary resets nothing. *)
Theorem count_within_limit (limit t0 : Z) (history : list Z) :
  let rl := run_attempts history (NewRateLimiter limit t0) in
  (forall clock rl' now rest,
     Wait clock rl = Some (rl', now, rest) ->
     0 < count rl' <= limitPerMin rl' /\ limitPerMin rl' = limit)
  /\ (0 <= limit -> 0 <= count rl <= limitPerMin rl)
  /\ (forall now,
        resetTime rl < now ->
        lazy_reset now rl =
          {| count := 0; limitPerMin := limit; resetTime := now + period |}
        /\ resetTime (fst (attempt now rl)) = now + period
        /\ count (fst (attempt now rl)) = (if 0 <? limit then 1 else 0))
  /\ (forall now,
        now <= resetTime rl ->
        lazy_reset now rl = rl
        /\ resetTime (fst (attempt now rl)) = resetTime rl
        /\ count rl <= count (fst (attempt now rl))).
Proof.
  intros rl.
  assert (Hlim : limitPerMin rl = limit).
  { unfold rl. rewrite limitPerMin_run_attempts. reflexivity. }
  assert (Hnonneg : 0 <= count rl).
  { unfold rl. apply run_attempts_count_nonneg. simpl. lia. }
  split; [|split; [|split]].
  - intros clock rl' now rest HWait.
    destruct (Wait_Some _ _ _ _ _ HWait) as (pre & _ & _ & Hatt).
    destruct (attempt_Permitted _ _ _ Hatt) as (Hlt & Hcnt & Hl & _).
    rewrite limitPerMin_run_attempts in Hlt, Hl.
    pose proof (count_lazy_reset_nonneg now (run_attempts pre rl)
      (run_attempts_count_nonneg pre rl Hnonneg)).
    rewrite Hl, Hlim in *. lia.
  - intros Hlimit. unfold rl.
    pose proof (run_attempts_invariant history (NewRateLimiter limit t0)) as H.
    simpl in H. rewrite limitPerMin_run_attempts. simpl. apply H; lia.
  - intros now Hlate.
    destruct (lazy_reset_cases now rl) as [[_ Hrl1]|[? _]]; [|lia].
    rewrite Hlim in Hrl1. split; [exact Hrl1|].
    destruct (attempt_cases now rl) as [[Hlt ->]|[Hge ->]];
      rewrite Hrl1 in *; simpl in *.
    + destruct (Z.ltb_spec 0 limit); [auto | lia].
    + destruct (Z.ltb_spec 0 limit); [lia | auto].
  - intros now Hsame.
    destruct (lazy_reset_cases now rl) as [[? _]|[_ Hrl1]]; [lia|].
    split; [exact Hrl1|].
    destruct (attempt_cases now rl) as [[Hlt ->]|[Hge ->]];
      rewrite Hrl1 in *; simpl in *; split; (reflexivity || lia).
Qed.

Lemma count_within_limit_witness :
  Wait [62 * second] (run_attempts [60 * second] (NewRateLimiter 1 0))
    = Some (mkRateLimiter 1 1 (123 * second), 62 * second, [])
  /\ 0 < count (mkRateLimiter 1 1 (123 * second))
      <= limitPerMin (mkRateLimiter 1 1 (123 * second)).
Proof.
  split; [reflexivity|].
  apply (proj1 (count_within_limit 1 0 [60 * second])
    [62 * second] (mkRateLimiter 1 1 (123 * second)) (62 * second) []).
  reflexivity.
Defined.

(** *** The calendar *)

(** The calendar repeats every 400 years, which are 146097 days. *)
Lemma civil_from_days_era days k :
  civil_from_days (days + 146097 * k) = shift_years k (civil_from_days days).
Proof.
  unfold civil_from_days, shift_years.
  replace (days + 146097 * k + 719468) with (days + 719468 + k * 146097) by lia.
  rewrite Z.div_add by lia.
  set (z := days + 719468).
  replace (z + k * 146097 - (z / 146097 + k) * 146097)
    with (z - z / 146097 * 146097) by lia.
  set (doe := z - z / 146097 * 146097).
  set (yoe := (doe - doe / 1460 + doe / 36524 - doe / 146096) / 365).
  set (doy := doe - (365 * yoe + yoe / 4 - yoe / 100)).
  set (mp := (5 * doy + 2) / 153).
  set (m := if mp <? 10 then mp + 3 else mp - 9).
  set (d := doy - (153 * mp + 2) / 5 + 1).
  set (e := z / 146097).
  destruct (m <=? 2); f_equal; f_equal; ring.
Qed.

Lemma is_leap_era y k : is_leap (y + 400 * k) = is_leap y.
Proof.
  unfold is_leap.
  replace ((y + 400 * k) mod 4) with (y mod 4)
    by (replace (y + 400 * k) with (y + (100 * k) * 4) by ring;
        symmetry; apply Z.mod_add; discriminate).
  replace ((y + 400 * k) mod 100) with (y mod 100)
    by (replace (y + 400 * k) with (y + (4 * k) * 100) by ring;
        symmetry; apply Z.mod_add; discriminate).
  replace ((y + 400 * k) mod 400) with (y mod 400)
    by (replace (y + 400 * k) with (y + k * 400) by ring;
        symmetry; apply Z.mod_add; discriminate).
  reflexivity.
Qed.

Lemma next_date_era k date :
  next_date (shift_years k date) = shift_years k (next_date date).
Proof.
  destruct date as [[y m] d]. unfold next_date, shift_years, days_in_month.
  rewrite is_leap_era.
  destruct (d <? _); [reflexivity|].
  destruct (m <? 12); f_equal; f_equal; ring.
Qed.

Lemma date_eqb_eq a b : date_eqb a b = true -> a = b.
Proof.
  destruct a as [[y m] d], b as [[y' m'] d']. simpl.
  rewrite !andb_true_iff, !Z.eqb_eq. intros [[-> ->] ->]. reflexivity.
Qed.

Lemma calendar_agrees_S n days date :
  calendar_agrees (S n) days date =
  date_eqb (civil_from_days (days + 1)) (next_date date)
  && calendar_agrees n (days + 1) (next_date date).
Proof. reflexivity. Qed.

Lemma calendar_agrees_spec n days r :
  calendar_agrees n days (civil_from_days days) = true ->
  days <= r < days + Z.of_nat n ->
  civil_from_days (r + 1) = next_date (civil_from_days r).
Proof.
  revert days. induction n as [|n IH]; intros days Hall Hr.
  - lia.
  - rewrite calendar_agrees_S in Hall.
    apply andb_true_iff in Hall as [Hstep Hrest].
    apply date_eqb_eq in Hstep.
    destruct (Z.eq_dec r days) as [->|Hne]; [exact Hstep|].
    rewrite <- Hstep in Hrest. apply (IH (days + 1) Hrest). lia.
Qed.

(** One era of 400 years, from 1 March 2000. *)
Lemma calendar_agrees_era :
  calendar_agrees (Z.to_nat 146097) 11017 (civil_from_days 11017) = true.
Proof. vm_compute. reflexivity. Qed.

(** Day numbers and dates advance together: the date of the day after is
    the date after. *)
Lemma civil_from_days_succ days :
  civil_from_days (days + 1) = next_date (civil_from_days days).
Proof.
  set (z := days - 11017).
  set (k := z / 146097).
  set (r := z mod 146097).
  assert (Hz : z = 146097 * k + r) by (apply Z.div_mod; discriminate).
  assert (Hr : 0 <= r < 146097) by (apply Z.mod_pos_bound; reflexivity).
  replace days with ((r + 11017) + 146097 * k) by (unfold z in Hz; lia).
  replace (r + 11017 + 146097 * k + 1)
    with ((r + 11017 + 1) + 146097 * k) by ring.
  rewrite !civil_from_days_era, next_date_era. f_equal.
  apply (calendar_agrees_spec (Z.to_nat 146097) 11017 (r + 11017)
           calendar_agrees_era).
  rewrite Z2Nat.id by discriminate. lia.
Qed.

Lemma civil_from_days_epoch : civil_from_days 0 = (1970, 1, 1).
Proof. reflexivity. Qed.


(** *** Partitioner *)

Lemma to_int_not_nil z :
  Z.to_int z <> Decimal.Pos Decimal.Nil /\ Z.to_int z <> Decimal.Neg Decimal.Nil.
Proof.
  destruct z as [|p|p]; simpl; split; try discriminate;
    intros H; injection H as H; exact (Unsigned.to_uint_nonnil p H).
Qed.

Lemma int_of_string_FormatInt i :
  NilZero.int_of_string (FormatInt i) = Some (Z.to_int i).
Proof.
  unfold FormatInt. destruct (to_int_not_nil i) as [Hp Hn].
  apply NilZero.isi; assumption.
Qed.


(** A data row never reads like the header. *)
Lemma record_of_not_header trade : record_of trade <> header.
Proof.
  unfold record_of, header. intros H. injection H as H _.
  pose proof (int_of_string_FormatInt (TradeId trade)) as Hi.
  rewrite H in Hi. vm_compute in Hi. discriminate.
Qed.


Lemma groupTradesByDate_snoc trades trade :
  groupTradesByDate (trades ++ [trade]) =
  <[dateStr (Timestamp trade) :=
      default [] (groupTradesByDate trades !! dateStr (Timestamp trade))
      ++ [record_of trade]]> (groupTradesByDate trades).
Proof. unfold groupTradesByDate. rewrite foldl_snoc. reflexivity. Qed.

(** A bucket holds the rows of the trades of its date, in page order. *)
Lemma groupTradesByDate_bucket trades d :
  default [] (groupTradesByDate trades !! d) =
  record_of <$> filter (fun t => dateStr (Timestamp t) = d) trades.
Proof.
  induction trades as [|trade trades IH] using rev_ind.
  - reflexivity.
  - rewrite groupTradesByDate_snoc, filter_app, fmap_app, <- IH.
    rewrite filter_cons, filter_nil.
    destruct (decide (dateStr (Timestamp trade) = d)) as [Heq|Hne];
      [subst d|].
    + rewrite lookup_insert_eq. reflexivity.
    + rewrite lookup_insert_ne by exact Hne. simpl. rewrite app_nil_r.
      reflexivity.
Qed.

(** There is a bucket for a date exactly when the page has a trade of that
    date. *)
Lemma groupTradesByDate_is_Some trades d :
  is_Some (groupTradesByDate trades !! d) <->
  exists t, t ∈ trades /\ dateStr (Timestamp t) = d.
Proof.
  induction trades as [|trade trades IH] using rev_ind.
  - unfold groupTradesByDate. simpl. rewrite lookup_empty. split.
    + intros [x Hx]. discriminate.
    + intros (t & Ht & _). inversion Ht.
  - rewrite groupTradesByDate_snoc.
    destruct (decide (dateStr (Timestamp trade) = d)) as [Heq|Hne];
      [subst d|].
    + rewrite lookup_insert_eq. split; [|eauto].
      intros _. exists trade. split; [|reflexivity].
      apply elem_of_app. right. apply list_elem_of_singleton. reflexivity.
    + rewrite lookup_insert_ne by exact Hne. rewrite IH. split.
      * intros (t & Ht & Hd). exists t. split; [|exact Hd].
        apply elem_of_app. left. exact Ht.
      * intros (t & Ht & Hd). apply elem_of_app in Ht as [Ht|Ht].
        -- eauto.
        -- apply list_elem_of_singleton in Ht. subst t. contradiction.
Qed.

Lemma total_rows_empty : total_rows ∅ = 0%nat.
Proof. unfold total_rows. apply map_fold_empty. Qed.







(** C10. [groupTradesByDate] is defined on every page; on the empty page it
    returns the empty map, which has no bucket for any date. *)
Theorem groupTradesByDate_empty_page :
  groupTradesByDate [] = ∅
  /\ (forall d, groupTradesByDate [] !! d = None)
  /\ total_rows (groupTradesByDate []) = 0%nat
  /\ (forall trades, exists grouped, groupTradesByDate trades = grouped).
Proof.
  split; [reflexivity|]. split; [intros d; apply lookup_empty|].
  split; [apply total_rows_empty|]. intros trades. eauto.
Qed.

(** *** Fetcher *)

(** C6, as the design document states it, fails: a response with status
    201 and a body that decodes to the empty page is a 2xx success over a
    working transport, and [fetchTrades] returns an error for it. *)
Lemma fetch_201_is_error :
  ~ (is_error (fetchTrades (decode_table [("[]", [])])
                 (fun _ => Response 201 "[]") "ETHUSDT" 0)
     <-> fetch_fails_2xx (decode_table [("[]", [])]) (Response 201 "[]")).
Proof.
  intros [Himpl _]. simpl in Himpl.
  destruct (Himpl I) as [Hstatus | Hdecode].
  - apply Hstatus. lia.
  - discriminate.
Qed.

(** C6 (amended). [fetchTrades] returns an error if and only if the
    transport fails, the status of the response is not 200, or the body
    does not decode; a response with status 200 whose body decodes to the
    empty array is a success with no records; the error for another status
    carries the status and the body. *)
Theorem fetchTrades_error_iff
    (json_decode : string -> option (list AggTrade))
    (Do : Client) (symbol : string) (fromId : Z) :
  (is_error (fetchTrades json_decode Do symbol fromId)
   <-> fetch_fails json_decode (Do (fetch_request symbol fromId)))
  /\ (forall body,
        Do (fetch_request symbol fromId) = Response StatusOK body ->
        json_decode body = Some [] ->
        fetchTrades json_decode Do symbol fromId = inl [])
  /\ (forall code body,
        Do (fetch_request symbol fromId) = Response code body ->
        code <> StatusOK ->
        fetchTrades json_decode Do symbol fromId = inr (ErrApi code body)).
Proof.
  unfold fetchTrades, fetch_fails. split; [|split].
  - destruct (Do _) as [|code body]; simpl; [tauto|].
    destruct (Z.eqb_spec code StatusOK) as [->|Hne]; simpl.
    + destruct (json_decode body); simpl; split; try tauto; try discriminate.
      intros [H|H]; [apply H; reflexivity | discriminate].
    + tauto.
  - intros body -> Hbody. simpl. rewrite Hbody. reflexivity.
  - intros code body -> Hne.
    destruct (Z.eqb_spec code StatusOK); [contradiction | reflexivity].
Qed.

Lemma fetchTrades_error_iff_witness :
  (fun _ : Request => Response 200 "[]") (fetch_request "ETHUSDT" 0)
    = Response StatusOK "[]"
  /\ decode_table [("[]", [])] "[]" = Some []
  /\ fetchTrades (decode_table [("[]", [])])
       (fun _ => Response 200 "[]") "ETHUSDT" 0 = inl [].
Proof.
  split; [reflexivity|]. split; [reflexivity|].
  apply (proj1 (proj2 (fetchTrades_error_iff (decode_table [("[]", [])])
    (fun _ => Response 200 "[]") "ETHUSDT" 0)) "[]"); reflexivity.
Defined.

(** *** Writer *)

Lemma saveToCSV_fresh filePath records
    (fs : gmap string (list (list string))) :
  fs !! filePath = None ->
  saveToCSV no_faults filePath records fs
  = (<[filePath := header :: records]> fs, None).
Proof.
  intros Hnew. unfold saveToCSV, isNewFile. simpl. rewrite Hnew. reflexivity.
Qed.

Lemma saveToCSV_existing filePath records old
    (fs : gmap string (list (list string))) :
  fs !! filePath = Some old ->
  saveToCSV no_faults filePath records fs
  = (<[filePath := old ++ records]> fs, None).
Proof.
  intros Hold. unfold saveToCSV, isNewFile. simpl. rewrite Hold. reflexivity.
Qed.

(** Whatever goes wrong, a call on a path that exists adds nothing but
    rows of the batch, from its start. *)
Lemma saveToCSV_existing_any faults filePath records old
    (fs : gmap string (list (list string))) :
  fs !! filePath = Some old ->
  exists k,
    fst (saveToCSV faults filePath records fs) !! filePath
    = Some (old ++ take k records).
Proof.
  intros Hold. unfold saveToCSV.
  assert (Hnew : isNewFile faults fs filePath = false).
  { unfold isNewFile. rewrite Hold. destruct (stat_fails faults); reflexivity. }
  rewrite Hnew, Hold. simpl.
  destruct (open_fails faults); simpl.
  - exists 0%nat. rewrite Hold, take_0, app_nil_r. reflexivity.
  - destruct (write_fails faults) as [k|]; simpl; rewrite lookup_insert_eq.
    + exists k. reflexivity.
    + exists (length records). rewrite firstn_all. reflexivity.
Qed.

Lemma save_all_existing filePath batches old
    (fs : gmap string (list (list string))) :
  fs !! filePath = Some old ->
  save_all filePath batches fs !! filePath = Some (old ++ concat batches).
Proof.
  revert old fs. induction batches as [|records batches IH]; intros old fs Hold.
  - simpl. rewrite app_nil_r. exact Hold.
  - cbn [save_all concat].
    rewrite (saveToCSV_existing _ _ _ _ Hold). cbn [fst].
    rewrite (IH (old ++ records)) by apply lookup_insert_eq.
    rewrite <- app_assoc. reflexivity.
Qed.

Lemma header_rows_records trades : header_rows (record_of <$> trades) = 0%nat.
Proof.
  unfold header_rows. induction trades as [|t trades IH]; [reflexivity|].
  rewrite fmap_cons, filter_cons.
  destruct (decide (record_of t = header)) as [Heq|_]; [|exact IH].
  destruct (record_of_not_header t Heq).
Qed.

Lemma header_rows_pages (pages : list (list AggTrade)) :
  header_rows
    (concat (map (fun page : list AggTrade => record_of <$> page) pages))
  = 0%nat.
Proof.
  unfold header_rows. induction pages as [|page pages IH]; [reflexivity|].
  cbn [map concat]. rewrite filter_app, length_app, IH.
  fold (header_rows (record_of <$> page)).
  rewrite header_rows_records. reflexivity.
Qed.



(** C9. When [os.Stat] fails with an error other than not-exist and the
    open and the write succeed, [saveToCSV] takes the path for an existing
    file: it writes the rows of the batch and no header. If the path did
    not exist, the file that the open creates holds the rows alone, and
    for rows of trades the header is not among them. *)
Theorem saveToCSV_stat_error (faults : OsFaults) (filePath : string)
    (records : list (list string))
    (fs : gmap string (list (list string))) :
  stat_fails faults = true ->
  open_fails faults = false ->
  write_fails faults = None ->
  isNewFile faults fs filePath = false
  /\ saveToCSV faults filePath records fs
     = (<[filePath := default [] (fs !! filePath) ++ records]> fs, None)
  /\ (fs !! filePath = None ->
      fst (saveToCSV faults filePath records fs) !! filePath = Some records
      /\ forall trades,
           records = record_of <$> trades -> header_rows records = 0%nat).
Proof.
  intros Hstat Hopen Hwrite.
  assert (Hnew : isNewFile faults fs filePath = false).
  { unfold isNewFile. rewrite Hstat. reflexivity. }
  assert (Hsave : saveToCSV faults filePath records fs
     = (<[filePath := default [] (fs !! filePath) ++ records]> fs, None)).
  { unfold saveToCSV. rewrite Hnew, Hopen, Hwrite. reflexivity. }
  split; [exact Hnew|]. split; [exact Hsave|].
  intros Habsent. split.
  - rewrite Hsave. simpl. rewrite lookup_insert_eq, Habsent. reflexivity.
  - intros trades ->. apply header_rows_records.
Qed.

Lemma saveToCSV_stat_error_witness :
  stat_fails (mkOsFaults true false None) = true
  /\ open_fails (mkOsFaults true false None) = false
  /\ write_fails (mkOsFaults true false None) = None
  /\ saveToCSV (mkOsFaults true false None) "ETHUSDT/2023-11-14.csv"
       (record_of <$> scenario_page) ∅
     = (<["ETHUSDT/2023-11-14.csv" :=
            default [] ((∅ : gmap string (list (list string)))
                          !! "ETHUSDT/2023-11-14.csv")
            ++ (record_of <$> scenario_page)]> ∅, None).
Proof.
  split; [reflexivity|]. split; [reflexivity|]. split; [reflexivity|].
  apply (proj1 (proj2 (saveToCSV_stat_error (mkOsFaults true false None)
    "ETHUSDT/2023-11-14.csv" (record_of <$> scenario_page) ∅
    eq_refl eq_refl eq_refl))).
Defined.

(** *** Worker *)

Section WorkerFacts.

Variable json_decode : string -> option (list AggTrade).
Variable symbol : string.

Lemma fetchTrades_page_of r sym c :
  fetchTrades json_decode (fun _ => r) sym c = page_of json_decode r.
Proof. reflexivity. Qed.

Lemma save_partitions_keeps parts w :
  status (save_partitions symbol parts w) = status w
  /\ fromId (save_partitions symbol parts w) = fromId w
  /\ requests (save_partitions symbol parts w) = requests w.
Proof.
  revert w. induction parts as [|[date records] parts IH]; intros w.
  - auto.
  - cbn [save_partitions].
    destruct (saveToCSV _ _ _ _) as [fs' err].
    destruct (IH (saved (partition_path symbol date) fs' err w))
      as (-> & -> & ->).
    auto.
Qed.

(** One iteration of the loop, by the page the fetch returns. *)
Lemma worker_loop_error r net w e :
  page_of json_decode r = inr e ->
  worker_loop json_decode symbol (r :: net) w
  = worker_loop json_decode symbol net
      (sent (fetch_request symbol (fromId w)) w).
Proof.
  intros H. cbn [worker_loop]. rewrite fetchTrades_page_of, H. reflexivity.
Qed.

Lemma worker_loop_empty r net w :
  page_of json_decode r = inl [] ->
  worker_loop json_decode symbol (r :: net) w
  = finished (sent (fetch_request symbol (fromId w)) w).
Proof.
  intros H. cbn [worker_loop]. rewrite fetchTrades_page_of, H. reflexivity.
Qed.

Lemma worker_loop_page r net w first rest :
  page_of json_decode r = inl (first :: rest) ->
  worker_loop json_decode symbol (r :: net) w
  = worker_loop json_decode symbol net
      (advanced (wrap64 (TradeId (List.last (first :: rest) first) + 1))
         (save_partitions symbol
            (map_to_list (groupTradesByDate (first :: rest)))
            (sent (fetch_request symbol (fromId w)) w))).
Proof.
  intros H. cbn [worker_loop]. rewrite fetchTrades_page_of, H. reflexivity.
Qed.

Lemma empty_page_true r :
  empty_page json_decode r = true <-> page_of json_decode r = inl [].
Proof.
  unfold empty_page. destruct (page_of json_decode r) as [[|t l]|e];
    split; congruence.
Qed.

(** The three ways an iteration can go. *)
Lemma page_of_cases r :
  (exists e, page_of json_decode r = inr e
             /\ empty_page json_decode r = false)
  \/ (page_of json_decode r = inl [] /\ empty_page json_decode r = true)
  \/ (exists first rest, page_of json_decode r = inl (first :: rest)
                         /\ empty_page json_decode r = false).
Proof.
  unfold empty_page. destruct (page_of json_decode r) as [[|t l]|e]; eauto 6.
Qed.

(** While no page is empty the worker goes on: it has sent one request
    per outcome and runs the rest of the outcomes from where it is. *)
Lemma worker_loop_app pre rest w :
  (forall r, In r pre -> empty_page json_decode r = false) ->
  worker_loop json_decode symbol (pre ++ rest) w
  = worker_loop json_decode symbol rest
      (worker_loop json_decode symbol pre w).
Proof.
  revert w. induction pre as [|r pre IH]; intros w Hpre; [reflexivity|].
  assert (Hr : empty_page json_decode r = false)
    by (apply Hpre; left; reflexivity).
  assert (Hpre' : forall r, In r pre -> empty_page json_decode r = false)
    by (intros x Hx; apply Hpre; right; exact Hx).
  rewrite <- app_comm_cons.
  destruct (page_of_cases r)
    as [(e & Hp & _) | [(Hp & He) | (first & tl & Hp & _)]].
  - rewrite !(worker_loop_error _ _ _ _ Hp). apply IH, Hpre'.
  - congruence.
  - rewrite !(worker_loop_page _ _ _ _ _ Hp). apply IH, Hpre'.
Qed.

Lemma worker_loop_running net w :
  (forall r, In r net -> empty_page json_decode r = false) ->
  status (worker_loop json_decode symbol net w) = status w
  /\ length (requests (worker_loop json_decode symbol net w))
     = (length (requests w) + length net)%nat.
Proof.
  revert w. induction net as [|r net IH]; intros w Hnet.
  - simpl. split; [reflexivity | lia].
  - assert (Hr : empty_page json_decode r = false)
      by (apply Hnet; left; reflexivity).
    assert (Hnet' : forall r, In r net -> empty_page json_decode r = false)
      by (intros x Hx; apply Hnet; right; exact Hx).
    destruct (page_of_cases r)
      as [(e & Hp & _) | [(Hp & He) | (first & tl & Hp & _)]].
    + rewrite (worker_loop_error _ _ _ _ Hp).
      destruct (IH (sent (fetch_request symbol (fromId w)) w) Hnet')
        as [-> ->].
      simpl. rewrite length_app. simpl. split; [reflexivity | lia].
    + congruence.
    + rewrite (worker_loop_page _ _ _ _ _ Hp).
      match goal with |- context [worker_loop _ _ net ?w'] =>
        destruct (IH w' Hnet') as [-> ->] end.
      cbn [advanced status requests].
      destruct (save_partitions_keeps
        (map_to_list (groupTradesByDate (first :: tl)))
        (sent (fetch_request symbol (fromId w)) w)) as (-> & _ & ->).
      simpl. rewrite length_app. simpl. split; [reflexivity | lia].
Qed.

(** The requests already sent stay as they are. *)
Lemma worker_loop_requests net w :
  exists more,
    requests (worker_loop json_decode symbol net w) = requests w ++ more.
Proof.
  revert w. induction net as [|r net IH]; intros w.
  - exists []. simpl. rewrite app_nil_r. reflexivity.
  - destruct (page_of_cases r)
      as [(e & Hp & _) | [(Hp & He) | (first & tl & Hp & _)]].
    + rewrite (worker_loop_error _ _ _ _ Hp).
      destruct (IH (sent (fetch_request symbol (fromId w)) w)) as [more ->].
      simpl. rewrite <- app_assoc. eauto.
    + rewrite (worker_loop_empty _ _ _ Hp). simpl. eauto.
    + rewrite (worker_loop_page _ _ _ _ _ Hp).
      match goal with |- context [worker_loop _ _ net ?w'] =>
        destruct (IH w') as [more ->] end.
      cbn [advanced requests].
      destruct (save_partitions_keeps
        (map_to_list (groupTradesByDate (first :: tl)))
        (sent (fetch_request symbol (fromId w)) w)) as (_ & _ & ->).
      simpl. rewrite <- app_assoc. eauto.
Qed.

(** The first empty page among the outcomes, if there is one. *)
Lemma first_empty_page net :
  (exists r, In r net /\ empty_page json_decode r = true) ->
  exists pre r post,
    net = pre ++ r :: post
    /\ (forall x, In x pre -> empty_page json_decode x = false)
    /\ empty_page json_decode r = true.
Proof.
  induction net as [|x net IH]; intros (r & Hin & Hr); [destruct Hin|].
  destruct (empty_page json_decode x) eqn:Hx.
  - exists [], x, net. split; [reflexivity|]. split; [intros ? []|exact Hx].
  - destruct Hin as [->|Hin]; [congruence|].
    destruct (IH (ex_intro _ r (conj Hin Hr)))
      as (pre & r' & post & -> & Hpre & Hr').
    exists (x :: pre), r', post. split; [reflexivity|].
    split; [|exact Hr'].
    intros y [<-|Hy]; [exact Hx | apply Hpre, Hy].
Qed.

Lemma no_empty_page_dec net :
  (exists r, In r net /\ empty_page json_decode r = true)
  \/ (forall r, In r net -> empty_page json_decode r = false).
Proof.
  induction net as [|x net [IH|IH]].
  - right. intros ? [].
  - left. destruct IH as (r & Hin & Hr). exists r. split; [right|]; auto.
  - destruct (empty_page json_decode x) eqn:Hx.
    + left. exists x. split; [left; reflexivity | exact Hx].
    + right. intros r [<-|Hin]; [exact Hx | apply IH, Hin].
Qed.

(** The worker stops at the first empty page, with one request sent per
    outcome up to it. *)
Lemma worker_loop_done pre r post w :
  (forall x, In x pre -> empty_page json_decode x = false) ->
  empty_page json_decode r = true ->
  status (worker_loop json_decode symbol (pre ++ r :: post) w) = DONE
  /\ length (requests (worker_loop json_decode symbol (pre ++ r :: post) w))
     = (length (requests w) + S (length pre))%nat
  /\ fromId (worker_loop json_decode symbol (pre ++ r :: post) w)
     = fromId (worker_loop json_decode symbol pre w).
Proof.
  intros Hpre Hr. rewrite (worker_loop_app _ _ _ Hpre).
  apply empty_page_true in Hr. rewrite (worker_loop_empty _ _ _ Hr).
  simpl. rewrite length_app.
  destruct (worker_loop_running pre w Hpre) as [_ ->]. simpl.
  split; [reflexivity|]. split; [lia | reflexivity].
Qed.

End WorkerFacts.

(** C3, as the design document states it, fails: when the directory of the
    symbol cannot be created the worker terminates at once. It has fetched
    nothing, so no empty page made it stop, and against the source of the
    scenario, one page and then an empty one, it makes no fetch call where
    the claim has two. *)
Lemma worker_aborts_without_fetch :
  ~ terminates_on_empty_page_only scenario_decode "ETHUSDT" false
      scenario_net [] ∅
  /\ terminated (processSymbol scenario_decode "ETHUSDT" false scenario_net [] ∅)
  /\ requests (processSymbol scenario_decode "ETHUSDT" false scenario_net [] ∅)
     = [].
Proof.
  split; [|split; [discriminate | reflexivity]].
  unfold terminates_on_empty_page_only. cbv zeta. intros H.
  destruct H as (pre & r & post & _ & _ & Hlen); [discriminate|].
  simpl in Hlen. discriminate.
Qed.

(** C3 (amended). A worker whose directory cannot be created terminates at
    once, without a fetch. Any other worker terminates if and only if some
    fetch returns an empty page, and then it is [DONE] after exactly the
    fetch calls up to the first empty page; in particular a source that
    returns one non-empty page and then an empty page makes it [DONE] after
    exactly two fetch calls. As long as no fetch returns an empty page,
    errors without end included, it is [RUNNING] after every outcome, with
    one fetch call made per outcome. *)
Theorem worker_termination
    (json_decode : string -> option (list AggTrade)) (symbol : string)
    (net : list DoResult) (faults : list OsFaults)
    (fs : gmap string (list (list string))) :
  (status (processSymbol json_decode symbol false net faults fs) = ABORTED
   /\ requests (processSymbol json_decode symbol false net faults fs) = [])
  /\ (terminated (processSymbol json_decode symbol true net faults fs)
      <-> exists r, In r net /\ empty_page json_decode r = true)
  /\ (forall pre r post,
        net = pre ++ r :: post ->
        (forall x, In x pre -> empty_page json_decode x = false) ->
        empty_page json_decode r = true ->
        status (processSymbol json_decode symbol true net faults fs) = DONE
        /\ length (requests
             (processSymbol json_decode symbol true net faults fs))
           = S (length pre))
  /\ (forall r1 r2 first rest,
        net = [r1; r2] ->
        page_of json_decode r1 = inl (first :: rest) ->
        page_of json_decode r2 = inl [] ->
        status (processSymbol json_decode symbol true net faults fs) = DONE
        /\ length (requests
             (processSymbol json_decode symbol true net faults fs))
           = 2%nat)
  /\ ((forall r, In r net -> empty_page json_decode r = false) ->
      status (processSymbol json_decode symbol true net faults fs) = RUNNING
      /\ length (requests
           (processSymbol json_decode symbol true net faults fs))
         = length net).
Proof.
  set (w0 := {| status := RUNNING; fromId := 0; requests := [];
                files := fs; os_script := faults; save_errors := [] |}).
  assert (Hdone : forall pre r post,
    net = pre ++ r :: post ->
    (forall x, In x pre -> empty_page json_decode x = false) ->
    empty_page json_decode r = true ->
    status (processSymbol json_decode symbol true net faults fs) = DONE
    /\ length (requests (processSymbol json_decode symbol true net faults fs))
       = S (length pre)).
  { intros pre r post -> Hpre Hr. unfold processSymbol. fold w0.
    destruct (worker_loop_done json_decode symbol pre r post w0 Hpre Hr)
      as (-> & -> & _).
    auto. }
  assert (Hrun : (forall r, In r net -> empty_page json_decode r = false) ->
    status (processSymbol json_decode symbol true net faults fs) = RUNNING
    /\ length (requests (processSymbol json_decode symbol true net faults fs))
       = length net).
  { intros Hnet. unfold processSymbol. fold w0.
    destruct (worker_loop_running json_decode symbol net w0 Hnet) as [-> ->].
    auto. }
  split; [split; reflexivity|].
  split; [|split; [exact Hdone|split; [|exact Hrun]]].
  - unfold terminated. split.
    + intros Hterm.
      destruct (no_empty_page_dec json_decode net) as [Hsome|Hnone];
        [exact Hsome|].
      destruct (Hrun Hnone) as [Hst _]. contradiction.
    + intros Hsome.
      destruct (first_empty_page json_decode net Hsome)
        as (pre & r & post & Hnet & Hpre & Hr).
      destruct (Hdone pre r post Hnet Hpre Hr) as [-> _]. discriminate.
  - intros r1 r2 first rest Hnet H1 H2.
    apply (Hdone [r1] r2 [] Hnet).
    + intros x [<-|[]]. unfold empty_page. rewrite H1. reflexivity.
    + apply empty_page_true, H2.
Qed.

Lemma worker_termination_witness :
  scenario_net = [Response 200 "page"] ++ Response 200 "[]" :: []
  /\ empty_page scenario_decode (Response 200 "[]") = true
  /\ status (processSymbol scenario_decode "ETHUSDT" true scenario_net [] ∅)
     = DONE
  /\ length (requests
       (processSymbol scenario_decode "ETHUSDT" true scenario_net [] ∅))
     = 2%nat.
Proof.
  split; [reflexivity|]. split; [reflexivity|].
  apply (proj1 (proj2 (proj2 (worker_termination scenario_decode "ETHUSDT"
    scenario_net [] ∅))) [Response 200 "page"] (Response 200 "[]") []).
  - reflexivity.
  - intros x [<-|[]]. reflexivity.
  - reflexivity.
Defined.

(** The scenario of the design document from end to end: two fetch calls,
    the cursor at 3, and one partition file with the header and two rows. *)
Example scenario_run :
  let w := processSymbol scenario_decode "ETHUSDT" true scenario_net [] ∅ in
  status w = DONE
  /\ map q_fromId (requests w) = [0; 3]
  /\ fromId w = 3
  /\ save_errors w = []
  /\ map_to_list (files w)
     = [("ETHUSDT/2023-11-14.csv",
         [ header;
           ["1"; "1800.50"; "0.25"; "1700000000000"; "true"];
           ["2"; "1801.00"; "0.40"; "1700003600000"; "false"] ])].
Proof. vm_compute. repeat split. Qed.

Lemma wrap64_in_range z : - 2 ^ 63 <= z < 2 ^ 63 -> wrap64 z = z.
Proof.
  intros Hz. unfold wrap64.
  rewrite Z.mod_small by lia. lia.
Qed.

Lemma last_default_irrelevant {A} (x : A) (l : list A) (d d' : A) :
  List.last (x :: l) d = List.last (x :: l) d'.
Proof.
  revert x. induction l as [|y l IH]; intros x; [reflexivity|].
  change (List.last (x :: y :: l) d) with (List.last (y :: l) d).
  change (List.last (x :: y :: l) d') with (List.last (y :: l) d').
  apply IH.
Qed.

(** The last element, as [trades[len(trades)-1]] reads it. *)
Lemma last_cons_default {A} (x : A) (l : list A) :
  last (x :: l) = Some (List.last (x :: l) x).
Proof.
  revert x. induction l as [|y l IH]; intros x; [reflexivity|].
  change (last (x :: y :: l)) with (last (y :: l)).
  change (List.last (x :: y :: l) x) with (List.last (y :: l) x).
  rewrite IH, (last_default_irrelevant y l y x). reflexivity.
Qed.

Section CursorFacts.

Variable json_decode : string -> option (list AggTrade).
Variable symbol : string.

(** A running worker that takes one more outcome sends a request from
    its cursor and is left with the next cursor. *)
Lemma worker_loop_one r w :
  requests (worker_loop json_decode symbol [r] w)
  = requests w ++ [fetch_request symbol (fromId w)]
  /\ fromId (worker_loop json_decode symbol [r] w)
     = next_cursor json_decode (fromId w) r.
Proof.
  unfold next_cursor.
  destruct (page_of_cases json_decode r)
    as [(e & Hp & _) | [(Hp & He) | (first & tl & Hp & _)]]; rewrite Hp.
  - rewrite (worker_loop_error _ _ _ _ _ _ Hp). simpl. auto.
  - rewrite (worker_loop_empty _ _ _ _ _ Hp). simpl. auto.
  - rewrite (worker_loop_page _ _ _ _ _ _ _ Hp).
    cbn [worker_loop advanced requests fromId].
    destruct (save_partitions_keeps symbol
      (map_to_list (groupTradesByDate (first :: tl)))
      (sent (fetch_request symbol (fromId w)) w)) as (_ & _ & ->).
    simpl. auto.
Qed.

(** The request that answers to outcome number [length pre] is sent from
    the cursor that the outcomes before it have left. *)
Lemma worker_loop_request pre r post w :
  (forall x, In x pre -> empty_page json_decode x = false) ->
  requests (worker_loop json_decode symbol (pre ++ r :: post) w)
    !! (length (requests w) + length pre)%nat
  = Some (fetch_request symbol
            (fromId (worker_loop json_decode symbol pre w))).
Proof.
  intros Hpre. rewrite (worker_loop_app _ _ _ _ _ Hpre).
  destruct (worker_loop_running json_decode symbol pre w Hpre) as [_ Hlen].
  set (w' := worker_loop json_decode symbol pre w) in *.
  change (r :: post) with ([r] ++ post).
  destruct (page_of_cases json_decode r)
    as [(e & Hp & He) | [(Hp & He) | (first & tl & Hp & He)]].
  1,3: rewrite (worker_loop_app json_decode symbol [r] post w')
         by (intros x [<-|[]]; exact He);
       destruct (worker_loop_requests json_decode symbol post
                   (worker_loop json_decode symbol [r] w')) as [more ->];
       destruct (worker_loop_one r w') as [-> _];
       rewrite <- app_assoc, <- Hlen; apply list_lookup_middle; reflexivity.
  simpl app. rewrite (worker_loop_empty _ _ _ _ _ Hp). simpl.
  rewrite <- Hlen. apply list_lookup_middle. reflexivity.
Qed.

(** While the pages follow the cursor, the cursors of the requests and
    the cursor the worker is left with go up. *)
Lemma worker_loop_cursors net w :
  - 2 ^ 63 <= fromId w ->
  pages_follow_cursor json_decode (fromId w) net = true ->
  exists cs,
    map q_fromId (requests (worker_loop json_decode symbol net w))
      ++ [fromId (worker_loop json_decode symbol net w)]
    = map q_fromId (requests w) ++ fromId w :: cs
    /\ nondecreasing (fromId w :: cs) = true.
Proof.
  revert w. induction net as [|r net IH]; intros w Hlow Hfollow.
  - exists []. auto.
  - cbn [pages_follow_cursor] in Hfollow.
    destruct (page_of_cases json_decode r)
      as [(e & Hp & _) | [(Hp & _) | (first & tl & Hp & _)]];
      rewrite Hp in Hfollow.
    + rewrite (worker_loop_error _ _ _ _ _ _ Hp).
      destruct (IH (sent (fetch_request symbol (fromId w)) w) Hlow Hfollow)
        as (cs & -> & Hcs).
      exists (fromId w :: cs). simpl in *.
      rewrite map_app, <- app_assoc. simpl. split; [reflexivity|].
      rewrite Z.leb_refl. exact Hcs.
    + rewrite (worker_loop_empty _ _ _ _ _ Hp).
      exists [fromId w]. simpl. rewrite map_app, <- app_assoc. simpl.
      rewrite Z.leb_refl. auto.
    + rewrite (worker_loop_page _ _ _ _ _ _ _ Hp).
      apply andb_true_iff in Hfollow as [Hid Hrest].
      apply andb_true_iff in Hid as [Hge Hlt].
      apply Z.leb_le in Hge. apply Z.ltb_lt in Hlt. unfold MaxInt64 in Hlt.
      set (id := TradeId (List.last (first :: tl) first)) in *.
      assert (Hwrap : wrap64 (id + 1) = id + 1)
        by (apply wrap64_in_range; lia).
      rewrite Hwrap.
      match goal with |- context [worker_loop _ _ net ?w'] =>
        destruct (IH w') as (cs & -> & Hcs) end.
      { simpl. lia. }
      { exact Hrest. }
      cbn [advanced requests fromId].
      destruct (save_partitions_keeps symbol
        (map_to_list (groupTradesByDate (first :: tl)))
        (sent (fetch_request symbol (fromId w)) w)) as (_ & _ & ->).
      exists (id + 1 :: cs). simpl.
      rewrite map_app, <- app_assoc. simpl. split; [reflexivity|].
      simpl in Hcs. rewrite Hcs, andb_true_r. apply Z.leb_le. lia.
Qed.

End CursorFacts.

(** C4, as the design document states it, fails at the greatest id: after
    a page whose last record has id 9223372036854775807 the next fetch is
    sent from -9223372036854775808, where the claim has
    9223372036854775808. *)
Lemma next_fetch_wraps_at_MaxInt64 :
  page_of id_decode (Response 200 "max")
    = inl [trade_with_id 9223372036854775807]
  /\ map q_fromId
       (requests (processSymbol id_decode "ETHUSDT" true
                    [Response 200 "max"; TransportError] [] ∅))
     = [0; -9223372036854775808]
  /\ -9223372036854775808 <> 9223372036854775807 + 1.
Proof. split; [reflexivity|]. split; [vm_compute; reflexivity | lia]. Qed.

(** C4 (amended). When a worker processes a non-empty page whose last
    record has id [X], its next fetch call is sent from [X + 1] computed in
    [int64]: from [X + 1] when [X] is below the greatest [int64], and from
    the least [int64] when [X] is the greatest. *)
Theorem next_fetch_from_last_id
    (json_decode : string -> option (list AggTrade)) (symbol : string)
    (pre : list DoResult) (r r' : DoResult) (post : list DoResult)
    (faults : list OsFaults) (fs : gmap string (list (list string)))
    (page : list AggTrade) (lastTrade : AggTrade) :
  (forall x, In x pre -> empty_page json_decode x = false) ->
  page_of json_decode r = inl page ->
  last page = Some lastTrade ->
  requests (processSymbol json_decode symbol true
              (pre ++ r :: r' :: post) faults fs) !! S (length pre)
  = Some (fetch_request symbol (wrap64 (TradeId lastTrade + 1)))
  /\ fromId (processSymbol json_decode symbol true (pre ++ [r]) faults fs)
     = wrap64 (TradeId lastTrade + 1)
  /\ (- 2 ^ 63 <= TradeId lastTrade < MaxInt64 ->
      wrap64 (TradeId lastTrade + 1) = TradeId lastTrade + 1)
  /\ (TradeId lastTrade = MaxInt64 ->
      wrap64 (TradeId lastTrade + 1) = - 2 ^ 63).
Proof.
  intros Hpre Hpage Hlast.
  destruct page as [|first rest]; [discriminate|].
  rewrite last_cons_default in Hlast. injection Hlast as <-.
  set (w0 := {| status := RUNNING; fromId := 0; requests := [];
                files := fs; os_script := faults; save_errors := [] |}).
  assert (Hcursor :
    fromId (worker_loop json_decode symbol (pre ++ [r]) w0)
    = wrap64 (TradeId (List.last (first :: rest) first) + 1)).
  { rewrite (worker_loop_app _ _ _ _ _ Hpre).
    destruct (worker_loop_one json_decode symbol r
                (worker_loop json_decode symbol pre w0)) as [_ ->].
    unfold next_cursor. rewrite Hpage. reflexivity. }
  split; [|split; [exact Hcursor|split]].
  - unfold processSymbol. fold w0.
    replace (pre ++ r :: r' :: post) with ((pre ++ [r]) ++ r' :: post)
      by (rewrite <- app_assoc; reflexivity).
    replace (S (length pre))
      with (length (requests w0) + length (pre ++ [r]))%nat
      by (rewrite length_app; simpl; lia).
    rewrite worker_loop_request.
    + rewrite Hcursor. reflexivity.
    + intros x Hx. apply in_app_or in Hx as [Hx|[<-|[]]]; [apply Hpre, Hx|].
      unfold empty_page. rewrite Hpage. reflexivity.
  - intros Hrange. apply wrap64_in_range. unfold MaxInt64 in Hrange. lia.
  - intros ->. reflexivity.
Qed.

Lemma next_fetch_from_last_id_witness :
  page_of scenario_decode (Response 200 "page") = inl scenario_page
  /\ last scenario_page
     = Some (mkAggTrade 2 "1801.00" "0.40" 2 3 1700003600000 false true)
  /\ requests (processSymbol scenario_decode "ETHUSDT" true
                 ([] ++ Response 200 "page" :: Response 200 "[]" :: [])
                 [] ∅) !! S (length (@nil DoResult))
     = Some (fetch_request "ETHUSDT"
               (wrap64 (TradeId
                  (mkAggTrade 2 "1801.00" "0.40" 2 3 1700003600000 false true)
                  + 1))).
Proof.
  split; [reflexivity|]. split; [reflexivity|].
  apply (next_fetch_from_last_id scenario_decode "ETHUSDT" []
    (Response 200 "page") (Response 200 "[]") [] [] ∅ scenario_page
    (mkAggTrade 2 "1801.00" "0.40" 2 3 1700003600000 false true)).
  - intros x [].
  - reflexivity.
  - reflexivity.
Defined.

(** C5, as the design document states it, fails: nothing in the worker
    keeps a page from taking the cursor back. A source that answers with a
    page ending at id 10 and then with one ending at id 3 has the worker
    fetch from 0, from 11 and then from 4. A source that keeps to ids no
    less than the cursor takes it back as well, with a page that ends at
    the greatest id: the worker then fetches from 0 and from the least
    [int64]. *)
Lemma cursor_goes_back :
  map q_fromId
    (requests (processSymbol id_decode "ETHUSDT" true
       [Response 200 "ten"; Response 200 "three"; TransportError] [] ∅))
  = [0; 11; 4]
  /\ ~ cursor_never_decreases id_decode "ETHUSDT"
         [Response 200 "ten"; Response 200 "three"; TransportError]
  /\ ~ cursor_never_decreases id_decode "ETHUSDT"
         [Response 200 "max"; TransportError].
Proof.
  split; [vm_compute; reflexivity|].
  unfold cursor_never_decreases. split; vm_compute; discriminate.
Qed.

(** C5 (amended). The cursor of a worker starts at 0. An outcome that is a
    non-empty page leaves a running worker with the id of the last record
    of the page plus one, computed in [int64], and any other outcome leaves
    the cursor as it is. When the pages follow the cursor, the cursors of
    the successive fetch calls and the cursor the worker is left with never
    decrease. *)
Theorem cursor_monotone
    (json_decode : string -> option (list AggTrade)) (symbol : string)
    (net : list DoResult) (faults : list OsFaults)
    (fs : gmap string (list (list string))) :
  fromId (processSymbol json_decode symbol true [] faults fs) = 0
  /\ (forall req,
        requests (processSymbol json_decode symbol true net faults fs) !! 0%nat
          = Some req ->
        q_fromId req = 0)
  /\ (forall r,
        (forall x, In x net -> empty_page json_decode x = false) ->
        fromId (processSymbol json_decode symbol true (net ++ [r]) faults fs)
        = next_cursor json_decode
            (fromId (processSymbol json_decode symbol true net faults fs)) r)
  /\ (pages_follow_cursor json_decode 0 net = true ->
      nondecreasing
        (map q_fromId
           (requests (processSymbol json_decode symbol true net faults fs))
         ++ [fromId (processSymbol json_decode symbol true net faults fs)])
      = true).
Proof.
  set (w0 := {| status := RUNNING; fromId := 0; requests := [];
                files := fs; os_script := faults; save_errors := [] |}).
  unfold processSymbol. fold w0.
  split; [reflexivity|]. split; [|split].
  - intros req. destruct net as [|r net]; [discriminate|].
    change (r :: net) with ([] ++ r :: net).
    pose proof (worker_loop_request json_decode symbol [] r net w0) as H.
    simpl in H. simpl. rewrite H by (intros x []).
    intros Heq. injection Heq as <-. reflexivity.
  - intros r Hnet. rewrite (worker_loop_app _ _ _ _ _ Hnet).
    apply worker_loop_one.
  - intros Hfollow.
    destruct (worker_loop_cursors json_decode symbol net w0) as (cs & -> & Hcs).
    + simpl. lia.
    + exact Hfollow.
    + exact Hcs.
Qed.

Lemma cursor_monotone_witness :
  pages_follow_cursor scenario_decode 0 scenario_net = true
  /\ nondecreasing
       (map q_fromId
          (requests (processSymbol scenario_decode "ETHUSDT" true
                       scenario_net [] ∅))
        ++ [fromId (processSymbol scenario_decode "ETHUSDT" true
                      scenario_net [] ∅)])
     = true.
Proof.
  split; [reflexivity|].
  apply (proj2 (proj2 (proj2 (cursor_monotone scenario_decode "ETHUSDT"
    scenario_net [] ∅)))).
  reflexivity.
Defined.

(** Dates on either side of the epoch, of a leap day and of the ends of the
    range of [int64] milliseconds. *)
Example dateStr_examples :
  dateStr 0 = "1970-01-01"
  /\ dateStr (-1) = "1969-12-31"
  /\ dateStr 951782400000 = "2000-02-29"
  /\ dateStr 1700003600000 = "2023-11-14"
  /\ dateStr (-62135596800001) = "0000-12-31"
  /\ dateStr 9223372036854775807 = "292278994-08-17".
Proof. vm_compute. repeat split. Qed.

(** * Further properties *)

(** ** More on the governor *)

Lemma windows_left_nonneg T R : 0 <= windows_left T R.
Proof.
  unfold windows_left. destruct (Z.leb_spec T R); [lia|].
  assert (0 <= (T - R - 1) / period) by (apply Z.div_pos; [lia | reflexivity]).
  lia.
Qed.

(** A reset uses up one of the windows that are left. *)
Lemma windows_left_reset T R now :
  R < now -> now <= T ->
  windows_left T (now + period) + 1 <= windows_left T R.
Proof.
  intros Hreset Hnow. unfold windows_left.
  destruct (Z.leb_spec T R); [lia|].
  destruct (Z.leb_spec T (now + period)).
  - assert (0 <= (T - R - 1) / period)
      by (apply Z.div_pos; [lia | reflexivity]).
    lia.
  - replace (T - (now + period) - 1) with ((T - now - 1) + (-1) * period)
      by ring.
    rewrite Z.div_add by discriminate.
    assert ((T - now - 1) / period <= (T - R - 1) / period)
      by (apply Z.div_le_mono; [reflexivity | lia]).
    lia.
Qed.

Lemma grants_horizon T clock rl :
  0 <= limitPerMin rl ->
  (forall t, In t clock -> t <= T) ->
  Z.of_nat (length (grants clock rl))
  <= Z.max 0 (limitPerMin rl - count rl)
     + limitPerMin rl * windows_left T (resetTime rl).
Proof.
  intros Hlimit. revert rl Hlimit.
  induction clock as [|now clock IH]; intros rl Hlimit Hin.
  - simpl. pose proof (windows_left_nonneg T (resetTime rl)). nia.
  - assert (Hnow : now <= T) by (apply Hin; left; reflexivity).
    assert (Hin' : forall t, In t clock -> t <= T)
      by (intros t Ht; apply Hin; right; exact Ht).
    rewrite grants_step.
    pose proof (windows_left_nonneg T (now + period)) as Hleft.
    destruct (lazy_reset_cases now rl) as [[Hreset Hrl1]|[Hsame Hrl1]].
    + pose proof (windows_left_reset T (resetTime rl) now Hreset Hnow) as Hw.
      destruct (attempt_cases now rl) as [[Hlt ->]|[Hge ->]];
        rewrite Hrl1 in *; simpl in *.
      * match goal with |- context [grants clock ?r] =>
          specialize (IH r Hlimit Hin') end.
        simpl in IH. nia.
      * match goal with |- context [grants clock ?r] =>
          specialize (IH r Hlimit Hin') end.
        simpl in IH. nia.
    + destruct (attempt_cases now rl) as [[Hlt ->]|[Hge ->]];
        rewrite Hrl1 in *; simpl in *.
      * match goal with |- context [grants clock ?r] =>
          specialize (IH r Hlimit Hin') end.
        simpl in IH. lia.
      * specialize (IH rl Hlimit Hin'). lia.
Qed.

(** X1. Over any horizon the governor grants no more than [limitPerMin]
    requests per period begun: if no pass reads the clock after [T], a
    limiter created at [t0] with a non-negative limit has let through at
    most [limitPerMin * (1 + (T - t0 - 1) / period)] callers (and at most
    [limitPerMin] when [T] is within the first period). *)
Theorem grants_long_run (limit t0 T : Z) (clock : list Z) :
  0 <= limit ->
  (forall t, In t clock -> t <= T) ->
  Z.of_nat (length (grants clock (NewRateLimiter limit t0)))
  <= limit * (1 + Z.max 0 ((T - t0 - 1) / period)).
Proof.
  intros Hlimit Hin.
  pose proof (grants_horizon T clock (NewRateLimiter limit t0) Hlimit Hin)
    as H.
  simpl in H. unfold windows_left in H.
  destruct (Z.leb_spec T (t0 + period)).
  - nia.
  - replace (T - (t0 + period) - 1) with ((T - t0 - 1) + (-1) * period) in H
      by ring.
    rewrite Z.div_add in H by discriminate.
    assert (0 <= (T - t0 - 1) / period)
      by (apply Z.div_pos; [unfold period, second in *; lia | reflexivity]).
    nia.
Qed.

Lemma grants_long_run_witness :
  0 <= maxReqPerMin
  /\ (forall t, In t boundary_burst -> t <= 62 * second)
  /\ Z.of_nat (length (grants boundary_burst (NewRateLimiter maxReqPerMin 0)))
     <= maxReqPerMin * (1 + Z.max 0 ((62 * second - 0 - 1) / period)).
Proof.
  assert (Hin : forall t, In t boundary_burst -> t <= 62 * second).
  { intros t Ht. unfold boundary_burst in Ht.
    apply in_app_or in Ht as [Ht|Ht]; apply repeat_spec in Ht; subst t;
      vm_compute; discriminate. }
  split; [vm_compute; discriminate|]. split; [exact Hin|].
  apply (grants_long_run maxReqPerMin 0 (62 * second) boundary_burst);
    [vm_compute; discriminate | exact Hin].
Defined.

Lemma no_grant_without_limit clock rl :
  limitPerMin rl <= 0 -> 0 <= count rl ->
  grants clock rl = [] /\ Wait clock rl = None.
Proof.
  revert rl. induction clock as [|now clock IH]; intros rl Hlimit Hcount.
  - auto.
  - pose proof (count_lazy_reset_nonneg now rl Hcount) as Hc1.
    rewrite grants_step. cbn [Wait].
    destruct (attempt_cases now rl) as [[Hlt _]|[_ Heq]]; [lia|].
    rewrite Heq. cbn [fst snd].
    apply IH; [rewrite limitPerMin_lazy_reset; exact Hlimit | exact Hc1].
Qed.

(** X2. A limiter created with a limit of zero or less never lets anyone
    through: whatever the clock reads and however long it runs, no pass is
    permitted and no call of [Wait] returns. *)
Theorem Wait_blocks_without_limit (limit t0 : Z) (history clock : list Z) :
  limit <= 0 ->
  grants clock (run_attempts history (NewRateLimiter limit t0)) = []
  /\ Wait clock (run_attempts history (NewRateLimiter limit t0)) = None.
Proof.
  intros Hlimit. apply no_grant_without_limit.
  - rewrite limitPerMin_run_attempts. exact Hlimit.
  - apply run_attempts_count_nonneg. simpl. lia.
Qed.

Lemma Wait_blocks_without_limit_witness :
  0 <= 0
  /\ Wait boundary_clock (run_attempts [] (NewRateLimiter 0 0)) = None.
Proof.
  split; [lia|].
  apply (Wait_blocks_without_limit 0 0 [] boundary_clock). lia.
Defined.

Lemma grants_window_exact clock rl :
  0 <= count rl <= limitPerMin rl ->
  (forall t, In t clock -> t <= resetTime rl) ->
  grants clock rl = take (Z.to_nat (limitPerMin rl - count rl)) clock.
Proof.
  revert rl. induction clock as [|now clock IH]; intros rl Hcount Hin.
  - rewrite take_nil. reflexivity.
  - assert (Hnow : now <= resetTime rl) by (apply Hin; left; reflexivity).
    assert (Hin' : forall t, In t clock -> t <= resetTime rl)
      by (intros t Ht; apply Hin; right; exact Ht).
    rewrite grants_step.
    destruct (lazy_reset_cases now rl) as [[? _]|[_ Hrl1]]; [lia|].
    destruct (attempt_cases now rl) as [[Hlt ->]|[Hge ->]];
      rewrite Hrl1 in *; cbn [fst snd].
    + match goal with |- context [grants clock ?r] =>
        rewrite (IH r) by (simpl; (lia || exact Hin')) end.
      simpl.
      replace (Z.to_nat (limitPerMin rl - count rl))
        with (S (Z.to_nat (limitPerMin rl - (count rl + 1)))) by lia.
      reflexivity.
    + rewrite (IH rl Hcount Hin').
      replace (Z.to_nat (limitPerMin rl - count rl)) with 0%nat by lia.
      reflexivity.
Qed.

(** X3. Within the first window the governor lets through exactly the
    first [limitPerMin] passes and turns away all the later ones: while no
    pass reads the clock after the boundary, the grants are the first
    [limitPerMin] readings. *)
Theorem grants_first_window (limit t0 : Z) (clock : list Z) :
  0 <= limit ->
  (forall t, In t clock -> t <= t0 + period) ->
  grants clock (NewRateLimiter limit t0) = take (Z.to_nat limit) clock.
Proof.
  intros Hlimit Hin.
  rewrite (grants_window_exact clock (NewRateLimiter limit t0)).
  - simpl. rewrite Z.sub_0_r. reflexivity.
  - simpl. lia.
  - exact Hin.
Qed.

Lemma grants_first_window_witness :
  0 <= 2
  /\ (forall t, In t [1; 2; 3] -> t <= 0 + period)
  /\ grants [1; 2; 3] (NewRateLimiter 2 0) = take (Z.to_nat 2) [1; 2; 3].
Proof.
  assert (Hin : forall t, In t [1; 2; 3] -> t <= 0 + period).
  { intros t [<-|[<-|[<-|[]]]]; vm_compute; discriminate. }
  split; [lia|]. split; [exact Hin|].
  apply (grants_first_window 2 0 [1; 2; 3]); [lia | exact Hin].
Defined.

(** X4. A caller that is turned away by a limiter with a positive limit
    leaves the limiter as it found it and is told to sleep exactly until
    the boundary of the window, never a negative time. If nobody else gets
    in between, its next pass is permitted as soon as the clock has passed
    the boundary; a pass at the very instant of the boundary still belongs
    to the old window and is turned away with nothing to sleep. *)
Theorem retry_sleeps_until_boundary (now d : Z) (rl rl' : RateLimiter) :
  0 < limitPerMin rl ->
  attempt now rl = (rl', Retry d) ->
  rl' = rl
  /\ 0 <= d
  /\ now + d = resetTime rl
  /\ (forall now', resetTime rl < now' -> snd (attempt now' rl') = Permitted)
  /\ attempt (resetTime rl) rl' = (rl', Retry 0).
Proof.
  intros Hlimit Hatt.
  destruct (attempt_cases now rl) as [[_ Heq]|[Hge Heq]];
    rewrite Heq in Hatt; [discriminate|].
  injection Hatt as <- <-.
  destruct (lazy_reset_cases now rl) as [[_ Hrl1]|[Hsame Hrl1]];
    rewrite Hrl1 in *; simpl in Hge; [lia|].
  split; [reflexivity|]. split; [lia|]. split; [lia|]. split.
  - intros now' Hlate.
    destruct (lazy_reset_cases now' rl) as [[_ Hr]|[? _]]; [|lia].
    destruct (attempt_cases now' rl) as [[_ ->]|[Hge' _]]; [reflexivity|].
    rewrite Hr in Hge'. simpl in Hge'. lia.
  - destruct (lazy_reset_cases (resetTime rl) rl) as [[? _]|[_ Hr]]; [lia|].
    destruct (attempt_cases (resetTime rl) rl) as [[Hlt _]|[_ ->]].
    + rewrite Hr in Hlt. lia.
    + rewrite Hr, Z.sub_diag. reflexivity.
Qed.

Lemma retry_sleeps_until_boundary_witness :
  0 < limitPerMin (mkRateLimiter 1 1 (61 * second))
  /\ attempt (60 * second) (mkRateLimiter 1 1 (61 * second))
     = (mkRateLimiter 1 1 (61 * second), Retry (1 * second))
  /\ 60 * second + 1 * second = resetTime (mkRateLimiter 1 1 (61 * second)).
Proof.
  split; [reflexivity|]. split; [reflexivity|].
  apply (retry_sleeps_until_boundary (60 * second) (1 * second)
    (mkRateLimiter 1 1 (61 * second)) (mkRateLimiter 1 1 (61 * second)));
    reflexivity.
Defined.

Lemma resetTime_run_attempts lo clock rl :
  resetTime rl <= lo + period ->
  nondecreasing (lo :: clock) = true ->
  resetTime (run_attempts clock rl) <= List.last clock lo + period.
Proof.
  revert lo rl. induction clock as [|now clock IH]; intros lo rl Hbound Hmono.
  - exact Hbound.
  - destruct (nondecreasing_cons _ _ Hmono) as [Hmono' Hlater].
    assert (Hnow : lo <= now) by (apply Hlater; left; reflexivity).
    change (run_attempts (now :: clock) rl)
      with (run_attempts clock (fst (attempt now rl))).
    assert (Hlast : List.last (now :: clock) lo = List.last clock now).
    { destruct clock as [|t clock']; [reflexivity|].
      change (List.last (now :: t :: clock') lo)
        with (List.last (t :: clock') lo).
      apply last_default_irrelevant. }
    rewrite Hlast.
    apply IH; [|exact Hmono'].
    destruct (lazy_reset_cases now rl) as [[_ Hrl1]|[_ Hrl1]];
      destruct (attempt_cases now rl) as [[_ ->]|[_ ->]];
      rewrite Hrl1; simpl; lia.
Qed.

Lemma nondecreasing_snoc lo clock now :
  nondecreasing (lo :: clock ++ [now]) = true ->
  nondecreasing (lo :: clock) = true /\ List.last clock lo <= now.
Proof.
  revert lo. induction clock as [|t clock IH]; intros lo H.
  - simpl in H. rewrite andb_true_r in H. apply Z.leb_le in H. auto.
  - change (nondecreasing (lo :: (t :: clock) ++ [now]))
      with ((lo <=? t) && nondecreasing (t :: clock ++ [now])) in H.
    apply andb_true_iff in H as [Hlo Hrest].
    destruct (IH t Hrest) as [Hmono Hlast]. split.
    + change (nondecreasing (lo :: t :: clock))
        with ((lo <=? t) && nondecreasing (t :: clock)).
      rewrite Hlo, Hmono. reflexivity.
    + destruct clock as [|u clock']; [exact Hlast|].
      change (List.last (t :: u :: clock') lo)
        with (List.last (u :: clock') lo).
      rewrite (last_default_irrelevant u clock' lo t). exact Hlast.
Qed.

(** X5. The governor never asks for a sleep longer than one period: with a
    clock that does not go back, any pass that is turned away, in any
    state the limiter can reach, is told to sleep between zero and 61
    seconds. *)
Theorem sleep_within_period (limit t0 now d : Z) (clock : list Z)
    (rl' : RateLimiter) :
  nondecreasing (t0 :: clock ++ [now]) = true ->
  attempt now (run_attempts clock (NewRateLimiter limit t0)) = (rl', Retry d) ->
  0 <= d <= period.
Proof.
  intros Hmono Hatt.
  set (rl := run_attempts clock (NewRateLimiter limit t0)) in *.
  assert (Hbound : resetTime rl <= now + period).
  { destruct (nondecreasing_snoc t0 clock now Hmono) as [Hclock Hlast].
    pose proof (resetTime_run_attempts t0 clock (NewRateLimiter limit t0)
      (Z.le_refl _) Hclock) as H.
    fold rl in H. lia. }
  destruct (attempt_cases now rl) as [[_ Heq]|[_ Heq]];
    rewrite Heq in Hatt; [discriminate|].
  injection Hatt as _ <-.
  destruct (lazy_reset_cases now rl) as [[_ Hrl1]|[Hsame Hrl1]];
    rewrite Hrl1; simpl; [|lia].
  pose proof period_pos. lia.
Qed.

Lemma sleep_within_period_witness :
  nondecreasing (0 :: [1 * second] ++ [2 * second]) = true
  /\ attempt (2 * second) (run_attempts [1 * second] (NewRateLimiter 1 0))
     = (mkRateLimiter 1 1 (61 * second), Retry (59 * second))
  /\ 0 <= 59 * second <= period.
Proof.
  split; [reflexivity|]. split; [reflexivity|].
  apply (sleep_within_period 1 0 (2 * second) (59 * second) [1 * second]
    (mkRateLimiter 1 1 (61 * second))); reflexivity.
Defined.

(** ** More on the writer *)

Lemma saveToCSV_other_path faults filePath records
    (fs : gmap string (list (list string))) p :
  p <> filePath ->
  fst (saveToCSV faults filePath records fs) !! p = fs !! p.
Proof.
  intros Hne. unfold saveToCSV.
  destruct (open_fails faults); [reflexivity|].
  destruct (write_fails faults); simpl;
    rewrite lookup_insert_ne by congruence; reflexivity.
Qed.

(** X6. [saveToCSV] only ever adds to the end of its own file: whatever
    goes wrong in the operating system, a file that existed before the
    call exists after it with its former content at the head, files at
    other paths are left exactly as they were, and no file appears at
    another path. *)
Theorem saveToCSV_append_only (faults : OsFaults) (filePath : string)
    (records : list (list string)) (fs : gmap string (list (list string)))
    (p : string) :
  (forall old,
     fs !! p = Some old ->
     exists more,
       fst (saveToCSV faults filePath records fs) !! p = Some (old ++ more)
       /\ (p <> filePath -> more = []))
  /\ (p <> filePath ->
      fst (saveToCSV faults filePath records fs) !! p = fs !! p).
Proof.
  assert (Hframe : p <> filePath ->
    fst (saveToCSV faults filePath records fs) !! p = fs !! p)
    by apply saveToCSV_other_path.
  split; [|exact Hframe].
  intros old Hold. destruct (decide (p = filePath)) as [->|Hne].
  - destruct (saveToCSV_existing_any faults filePath records old fs Hold)
      as [k Hk].
    exists (take k records). split; [exact Hk | congruence].
  - exists []. rewrite (Hframe Hne), app_nil_r. auto.
Qed.

Lemma saveToCSV_append_only_witness :
  (<["a.csv" := [header]]> ∅ : gmap string (list (list string))) !! "a.csv"
    = Some [header]
  /\ exists more,
       fst (saveToCSV no_faults "b.csv" [["1"]] (<["a.csv" := [header]]> ∅))
         !! "a.csv" = Some ([header] ++ more)
       /\ ("a.csv" <> "b.csv" -> more = []).
Proof.
  split; [reflexivity|].
  apply (proj1 (saveToCSV_append_only no_faults "b.csv" [["1"]]
    (<["a.csv" := [header]]> ∅) "a.csv")).
  reflexivity.
Defined.

(** X7. How a batch is cut into calls does not matter: on a file system
    that works, appending two batches in two calls of [saveToCSV] leaves
    the same file system as appending them in one call, whether the file
    existed or not. *)
Theorem saveToCSV_split_batch (filePath : string)
    (first second : list (list string))
    (fs : gmap string (list (list string))) :
  fst (saveToCSV no_faults filePath second
         (fst (saveToCSV no_faults filePath first fs)))
  = fst (saveToCSV no_faults filePath (first ++ second) fs).
Proof.
  destruct (fs !! filePath) as [old|] eqn:Hfile.
  - rewrite (saveToCSV_existing _ first _ _ Hfile). cbn [fst].
    rewrite (saveToCSV_existing _ second (old ++ first))
      by apply lookup_insert_eq.
    rewrite (saveToCSV_existing _ (first ++ second) _ _ Hfile). cbn [fst].
    rewrite insert_insert_eq, app_assoc. reflexivity.
  - rewrite (saveToCSV_fresh _ first _ Hfile). cbn [fst].
    rewrite (saveToCSV_existing _ second (header :: first))
      by apply lookup_insert_eq.
    rewrite (saveToCSV_fresh _ (first ++ second) _ Hfile). cbn [fst].
    rewrite insert_insert_eq. reflexivity.
Qed.

(** X8. A file whose creation failed never gets its header. When the path
    does not exist, the open succeeds and the write fails before anything
    reaches the file, [saveToCSV] returns an error and leaves an empty
    file; every later call finds the file and appends rows only, so
    however many batches of trades are then saved without a fault, the
    file holds their rows and no header. *)
Theorem header_lost_after_failed_creation (faults : OsFaults)
    (filePath : string) (records : list (list string))
    (fs : gmap string (list (list string))) (pages : list (list AggTrade)) :
  fs !! filePath = None ->
  stat_fails faults = false ->
  open_fails faults = false ->
  write_fails faults = Some 0%nat ->
  snd (saveToCSV faults filePath records fs) = Some ErrWrite
  /\ fst (saveToCSV faults filePath records fs) !! filePath = Some []
  /\ save_all filePath
       (map (fun page : list AggTrade => record_of <$> page) pages)
       (fst (saveToCSV faults filePath records fs)) !! filePath
     = Some (concat
         (map (fun page : list AggTrade => record_of <$> page) pages))
  /\ header_rows
       (concat (map (fun page : list AggTrade => record_of <$> page) pages))
     = 0%nat.
Proof.
  intros Hnew Hstat Hopen Hwrite.
  assert (Hsave : saveToCSV faults filePath records fs
                  = (<[filePath := []]> fs, Some ErrWrite)).
  { unfold saveToCSV, isNewFile.
    rewrite Hstat, Hopen, Hwrite, Hnew. reflexivity. }
  rewrite Hsave. cbn [fst snd].
  split; [reflexivity|]. split; [apply lookup_insert_eq|].
  split; [|apply header_rows_pages].
  rewrite (save_all_existing _ _ []) by apply lookup_insert_eq.
  reflexivity.
Qed.

Lemma header_lost_after_failed_creation_witness :
  (∅ : gmap string (list (list string))) !! "ETHUSDT/2023-11-14.csv" = None
  /\ stat_fails (mkOsFaults false false (Some 0%nat)) = false
  /\ open_fails (mkOsFaults false false (Some 0%nat)) = false
  /\ write_fails (mkOsFaults false false (Some 0%nat)) = Some 0%nat
  /\ snd (saveToCSV (mkOsFaults false false (Some 0%nat))
            "ETHUSDT/2023-11-14.csv" (record_of <$> scenario_page) ∅)
     = Some ErrWrite.
Proof.
  split; [reflexivity|]. split; [reflexivity|].
  split; [reflexivity|]. split; [reflexivity|].
  apply (proj1 (header_lost_after_failed_creation
    (mkOsFaults false false (Some 0%nat)) "ETHUSDT/2023-11-14.csv"
    (record_of <$> scenario_page) ∅ [scenario_page]
    (lookup_empty _) eq_refl eq_refl eq_refl)).
Defined.

(** ** More on the partitioner *)

Lemma groupTradesByDate_lookup_Some trades d rows :
  groupTradesByDate trades !! d = Some rows ->
  rows = record_of <$> filter (fun t => dateStr (Timestamp t) = d) trades
  /\ rows <> [].
Proof.
  intros Hd.
  pose proof (groupTradesByDate_bucket trades d) as Hbucket.
  rewrite Hd in Hbucket. simpl in Hbucket. split; [exact Hbucket|].
  destruct (proj1 (groupTradesByDate_is_Some trades d) (mk_is_Some _ _ Hd))
    as (t & Ht & Hdate).
  assert (Hin : record_of t ∈ rows).
  { rewrite Hbucket. apply list_elem_of_fmap. exists t. split; [reflexivity|].
    apply list_elem_of_filter. auto. }
  intros ->. inversion Hin.
Qed.

Lemma size_groupTradesByDate trades :
  (size (groupTradesByDate trades) <= length trades)%nat.
Proof.
  induction trades as [|trade trades IH] using rev_ind.
  - unfold groupTradesByDate. simpl. rewrite map_size_empty. lia.
  - rewrite groupTradesByDate_snoc, map_size_insert, length_app. simpl.
    destruct (groupTradesByDate trades !! dateStr (Timestamp trade));
      simpl; lia.
Qed.

(** X9. [groupTradesByDate] makes no empty bucket and no more buckets than
    the page has records: every date in the map has at least one row, so
    the worker never opens a file for a day without trades. *)
Theorem groupTradesByDate_no_empty_bucket (trades : list AggTrade) :
  (forall d rows, groupTradesByDate trades !! d = Some rows -> rows <> [])
  /\ (size (groupTradesByDate trades) <= length trades)%nat.
Proof.
  split; [|apply size_groupTradesByDate].
  intros d rows Hd. apply (groupTradesByDate_lookup_Some trades d rows Hd).
Qed.

Lemma groupTradesByDate_no_empty_bucket_witness :
  groupTradesByDate scenario_page !! "2023-11-14"
    = Some (record_of <$> scenario_page)
  /\ (record_of <$> scenario_page) <> [].
Proof.
  assert (H : groupTradesByDate scenario_page !! "2023-11-14"
              = Some (record_of <$> scenario_page)) by reflexivity.
  split; [exact H|].
  apply (proj1 (groupTradesByDate_no_empty_bucket scenario_page)
    "2023-11-14" _ H).
Defined.

(** X10. A page whose trades all fall on one UTC day goes to one bucket:
    the map has that date alone, with the rows of the whole page in page
    order. *)
Theorem groupTradesByDate_one_day (trades : list AggTrade) (d : string) :
  trades <> [] ->
  (forall t, t ∈ trades -> dateStr (Timestamp t) = d) ->
  groupTradesByDate trades = {[ d := record_of <$> trades ]}.
Proof.
  intros Hne Hday. apply map_eq. intros d'.
  destruct (decide (d = d')) as [<-|Hdiff].
  - rewrite lookup_singleton_eq.
    assert (Hsome : is_Some (groupTradesByDate trades !! d)).
    { apply groupTradesByDate_is_Some. destruct trades as [|t trades'];
        [contradiction|].
      exists t. split; [left | apply Hday; left]. }
    destruct Hsome as [rows Hrows]. rewrite Hrows. f_equal.
    destruct (groupTradesByDate_lookup_Some _ _ _ Hrows) as [-> _].
    f_equal. clear Hrows Hne.
    induction trades as [|t trades' IH]; [reflexivity|].
    rewrite filter_cons.
    destruct (decide (dateStr (Timestamp t) = d)) as [_|Hbad].
    + f_equal. apply IH. intros t' Ht'. apply Hday. right. exact Ht'.
    + destruct Hbad. apply Hday. left.
  - rewrite lookup_singleton_ne by exact Hdiff.
    destruct (groupTradesByDate trades !! d') as [rows|] eqn:Hrows;
      [|reflexivity].
    destruct (proj1 (groupTradesByDate_is_Some trades d')
                (mk_is_Some _ _ Hrows)) as (t & Ht & Hdate).
    rewrite (Hday t Ht) in Hdate. contradiction.
Qed.

Lemma groupTradesByDate_one_day_witness :
  scenario_page <> []
  /\ (forall t, t ∈ scenario_page -> dateStr (Timestamp t) = "2023-11-14")
  /\ groupTradesByDate scenario_page
     = {[ "2023-11-14" := record_of <$> scenario_page ]}.
Proof.
  assert (Hday : forall t, t ∈ scenario_page ->
                           dateStr (Timestamp t) = "2023-11-14").
  { intros t Ht. unfold scenario_page in Ht.
    apply elem_of_cons in Ht as [->|Ht]; [reflexivity|].
    apply elem_of_cons in Ht as [->|Ht]; [reflexivity|].
    inversion Ht. }
  split; [discriminate|]. split; [exact Hday|].
  apply (groupTradesByDate_one_day scenario_page "2023-11-14");
    [discriminate | exact Hday].
Defined.

Lemma concat_Permutation_outer {A} (l l' : list (list A)) :
  l ≡ₚ l' -> concat l ≡ₚ concat l'.
Proof.
  induction 1 as [|x l l' _ IH|x y l|l l' l'' _ IH1 _ IH2]; simpl.
  - reflexivity.
  - rewrite IH. reflexivity.
  - rewrite !app_assoc. apply Permutation_app_tail, Permutation_app_comm.
  - rewrite IH1. exact IH2.
Qed.

(** X11. The buckets together hold the rows of the page, each as often as
    the page has it: in whatever order the map is read, the rows of its
    buckets put end to end are a rearrangement of the rows of the page. *)
Theorem groupTradesByDate_rearranges (trades : list AggTrade) :
  concat (snd <$> map_to_list (groupTradesByDate trades))
  ≡ₚ record_of <$> trades.
Proof.
  induction trades as [|trade trades IH] using rev_ind.
  - unfold groupTradesByDate. simpl. rewrite map_to_list_empty. reflexivity.
  - rewrite groupTradesByDate_snoc, fmap_app. simpl.
    set (d := dateStr (Timestamp trade)).
    set (m := groupTradesByDate trades) in *.
    destruct (m !! d) as [rows|] eqn:Hd; simpl.
    + rewrite <- insert_delete_eq.
      rewrite (concat_Permutation_outer _ _
        (fmap_Permutation snd _ _
           (map_to_list_insert (delete d m) d (rows ++ [record_of trade])
              (lookup_delete_eq m d)))).
      rewrite <- IH.
      rewrite <- (concat_Permutation_outer _ _
        (fmap_Permutation snd _ _ (map_to_list_delete m d rows Hd))).
      simpl. rewrite <- !app_assoc.
      apply Permutation_app_head, Permutation_app_comm.
    + rewrite (concat_Permutation_outer _ _
        (fmap_Permutation snd _ _
           (map_to_list_insert m d [record_of trade] Hd))).
      simpl. rewrite IH.
      apply Permutation_cons_append.
Qed.

(** ** More on dates *)

Lemma days_in_month_bounds y m : 28 <= days_in_month y m <= 31.
Proof.
  unfold days_in_month.
  destruct (m =? 2); [destruct (is_leap y); lia|].
  destruct ((m =? 4) || (m =? 6) || (m =? 9) || (m =? 11)); lia.
Qed.

Lemma valid_date_spec y m d :
  valid_date (y, m, d) = true <->
  1 <= m <= 12 /\ 1 <= d <= days_in_month y m.
Proof.
  unfold valid_date. rewrite !andb_true_iff, !Z.leb_le. tauto.
Qed.

Lemma valid_next_date date :
  valid_date date = true -> valid_date (next_date date) = true.
Proof.
  destruct date as [[y m] d]. intros H. apply valid_date_spec in H.
  unfold next_date.
  destruct (Z.ltb_spec d (days_in_month y m)).
  - apply valid_date_spec. lia.
  - destruct (Z.ltb_spec m 12); apply valid_date_spec.
    + pose proof (days_in_month_bounds y (m + 1)). lia.
    + pose proof (days_in_month_bounds (y + 1) 1). lia.
Qed.

Lemma valid_shift_years k date :
  valid_date (shift_years k date) = valid_date date.
Proof.
  destruct date as [[y m] d]. unfold shift_years, valid_date, days_in_month.
  rewrite is_leap_era. reflexivity.
Qed.

(** Every day number has a date of the calendar. *)
Lemma valid_civil_from_days days : valid_date (civil_from_days days) = true.
Proof.
  assert (Hnonneg : forall n, 0 <= n -> valid_date (civil_from_days n) = true).
  { intros n Hn. pattern n. apply natlike_ind; [reflexivity | | exact Hn].
    intros x _ IH. unfold Z.succ. rewrite civil_from_days_succ.
    apply valid_next_date, IH. }
  pose proof (Z.div_mod days 146097 ltac:(discriminate)) as Hdays.
  pose proof (Z.mod_pos_bound days 146097 ltac:(reflexivity)) as Hr.
  replace days with (days mod 146097 + 146097 * (days / 146097)) by lia.
  rewrite civil_from_days_era, valid_shift_years.
  apply Hnonneg. lia.
Qed.

Lemma date_lt_trans a b c : date_lt a b -> date_lt b c -> date_lt a c.
Proof.
  destruct a as [[y m] d], b as [[y' m'] d'], c as [[y'' m''] d''].
  unfold date_lt. lia.
Qed.

Lemma date_lt_irrefl a : ~ date_lt a a.
Proof. destruct a as [[y m] d]. unfold date_lt. lia. Qed.

Lemma date_lt_next_date date :
  valid_date date = true -> date_lt date (next_date date).
Proof.
  destruct date as [[y m] d]. intros H. apply valid_date_spec in H.
  unfold next_date.
  destruct (Z.ltb_spec d (days_in_month y m)); [unfold date_lt; lia|].
  destruct (Z.ltb_spec m 12); unfold date_lt; lia.
Qed.

(** Dates go up with day numbers. *)
Lemma civil_from_days_lt days days' :
  days < days' -> date_lt (civil_from_days days) (civil_from_days days').
Proof.
  intros Hlt. replace days' with (days + 1 + (days' - days - 1)) by ring.
  assert (Hk : 0 <= days' - days - 1) by lia.
  generalize dependent (days' - days - 1). intros k Hk.
  pattern k. apply natlike_ind; [| |exact Hk].
  - rewrite Z.add_0_r, civil_from_days_succ.
    apply date_lt_next_date, valid_civil_from_days.
  - intros x _ IH. replace (days + 1 + Z.succ x) with (days + 1 + x + 1) by lia.
    rewrite (civil_from_days_succ (days + 1 + x)).
    apply (date_lt_trans _ _ _ IH).
    apply date_lt_next_date, valid_civil_from_days.
Qed.

Lemma civil_from_days_inj days days' :
  civil_from_days days = civil_from_days days' -> days = days'.
Proof.
  intros Heq.
  destruct (Z.lt_trichotomy days days') as [Hlt|[Heq'|Hgt]]; [|exact Heq'|].
  - pose proof (civil_from_days_lt _ _ Hlt) as H. rewrite Heq in H.
    destruct (date_lt_irrefl _ H).
  - pose proof (civil_from_days_lt _ _ Hgt) as H. rewrite Heq in H.
    destruct (date_lt_irrefl _ H).
Qed.

(** X12. The date function keeps to the calendar and to the order of
    time: every day number has a month from 1 to 12 and a day that this
    month has in that year, a later day has a later date, and so two day
    numbers with the same date are the same day. *)
Theorem civil_from_days_calendar (days days' : Z) :
  valid_date (civil_from_days days) = true
  /\ (days < days' ->
      date_lt (civil_from_days days) (civil_from_days days'))
  /\ (civil_from_days days = civil_from_days days' -> days = days').
Proof.
  split; [apply valid_civil_from_days|].
  split; [apply civil_from_days_lt | apply civil_from_days_inj].
Qed.

Lemma civil_from_days_calendar_witness :
  19675 < 19676
  /\ date_lt (civil_from_days 19675) (civil_from_days 19676).
Proof.
  split; [lia|].
  apply (proj1 (proj2 (civil_from_days_calendar 19675 19676))). lia.
Defined.

(** *** Date strings *)

Lemma string_length_append (a b : string) :
  String.length (a ++ b) = (String.length a + String.length b)%nat.
Proof. induction a as [|c a IH]; simpl; [reflexivity | rewrite IH; reflexivity]. Qed.

Lemma string_append_inj (a a' b b' : string) :
  String.length a = String.length a' ->
  (a ++ b = a' ++ b')%string -> a = a' /\ b = b'.
Proof.
  revert a'. induction a as [|c a IH]; intros [|c' a'] Hlen Heq;
    try discriminate.
  - auto.
  - simpl in Hlen, Heq. injection Heq as -> Heq. injection Hlen as Hlen.
    destruct (IH a' Hlen Heq) as [-> ->]. auto.
Qed.

Lemma uint_of_string_zeros k s :
  NilEmpty.uint_of_string (zeros k ++ s)
  = option_map (Nat.iter k Decimal.D0) (NilEmpty.uint_of_string s).
Proof.
  induction k as [|k IH].
  - change (zeros 0 ++ s)%string with s.
    destruct (NilEmpty.uint_of_string s); reflexivity.
  - change (zeros (S k) ++ s)%string with (String "0" (zeros k ++ s)).
    cbn [NilEmpty.uint_of_string]. rewrite IH.
    destruct (NilEmpty.uint_of_string s); reflexivity.
Qed.

Lemma of_uint_zeros k u :
  Z.of_uint (Nat.iter k Decimal.D0 u) = Z.of_uint u.
Proof. induction k as [|k IH]; [reflexivity | exact IH]. Qed.

(** The digits of a number that is not negative. *)
Lemma FormatInt_nonneg z :
  0 <= z ->
  exists u,
    FormatInt z = NilEmpty.string_of_uint u
    /\ u <> Decimal.Nil
    /\ Z.of_uint u = z.
Proof.
  intros Hz. unfold FormatInt. destruct z as [|p|p]; [| |lia].
  - exists (Decimal.D0 Decimal.Nil). repeat split. discriminate.
  - exists (Pos.to_uint p). simpl.
    pose proof (Unsigned.to_uint_nonnil p) as Hnil.
    split; [destruct (Pos.to_uint p); (reflexivity || contradiction)|].
    split; [exact Hnil|].
    change (Z.of_uint (Pos.to_uint p)) with (Z.of_int (Z.to_int (Z.pos p))).
    apply DecimalZ.of_to.
Qed.

Lemma string_of_uint_first u :
  u <> Decimal.Nil ->
  exists c s, NilEmpty.string_of_uint u = String c s /\ c <> "-"%char.
Proof.
  intros Hu. destruct u; [contradiction|..]; simpl; eexists _, _;
    (split; [reflexivity | discriminate]).
Qed.

(** What [appendInt] prints reads back as the number, whatever the width. *)
Lemma parse_appendInt x width : parse_int (appendInt x width) = Some x.
Proof.
  unfold appendInt, parse_int.
  destruct (FormatInt_nonneg (Z.abs x) (Z.abs_nonneg x))
    as (u & -> & Hu & Hval).
  set (k := (width - String.length (NilEmpty.string_of_uint u))%nat).
  fold (zeros k).
  destruct (string_of_uint_first u Hu) as (c & s & Hdigits & Hc).
  assert (Hpadded : NilZero.uint_of_string
                      (zeros k ++ NilEmpty.string_of_uint u)
                    = Some (Nat.iter k Decimal.D0 u)).
  { assert (Hne : exists c' s',
      (zeros k ++ NilEmpty.string_of_uint u)%string = String c' s').
    { rewrite Hdigits. destruct k; simpl; eauto. }
    destruct Hne as (c' & s' & Hne). unfold NilZero.uint_of_string.
    rewrite Hne, <- Hne, uint_of_string_zeros, NilEmpty.usu. reflexivity. }
  destruct (Z.ltb_spec x 0).
  - cbn [NilZero.int_of_string]. rewrite Ascii.eqb_refl, Hpadded. simpl.
    rewrite of_uint_zeros, Hval. f_equal. lia.
  - assert (Hfirst : exists c' s',
      (zeros k ++ NilEmpty.string_of_uint u)%string = String c' s'
      /\ c' <> "-"%char).
    { rewrite Hdigits. destruct k; simpl; [eauto|].
      eexists _, _. split; [reflexivity | discriminate]. }
    destruct Hfirst as (c' & s' & Hshape & Hc').
    unfold NilZero.int_of_string. rewrite Hshape.
    destruct (Ascii.eqb_spec c' "-"); [contradiction|].
    rewrite <- Hshape, Hpadded. simpl.
    rewrite of_uint_zeros, Hval. f_equal. lia.
Qed.

Lemma checked_from_spec n z P r :
  checked_from n z P = true -> z <= r < z + Z.of_nat n -> P r = true.
Proof.
  revert z. induction n as [|n IH]; intros z Hall Hr; [lia|].
  cbn [checked_from] in Hall. apply andb_true_iff in Hall as [Hz Hrest].
  destruct (Z.eq_dec r z) as [->|Hne]; [exact Hz|].
  apply (IH (z + 1) Hrest). lia.
Qed.

(** Months and days of the month print as two characters. *)
Lemma appendInt_two_chars n :
  1 <= n <= 31 -> String.length (appendInt n 2) = 2%nat.
Proof.
  intros Hn. apply Nat.eqb_eq.
  apply (checked_from_spec 31 1 two_chars n); [reflexivity | lia].
Qed.

Lemma dateStr_civil ms :
  exists y m d,
    civil_from_days (unix_day ms) = (y, m, d)
    /\ 1 <= m <= 31 /\ 1 <= d <= 31
    /\ dateStr ms
       = (appendInt y 4 ++ String "-" (appendInt m 2 ++ String "-"
            (appendInt d 2)))%string.
Proof.
  unfold dateStr. pose proof (valid_civil_from_days (unix_day ms)) as Hvalid.
  destruct (civil_from_days (unix_day ms)) as [[y m] d].
  apply valid_date_spec in Hvalid.
  pose proof (days_in_month_bounds y m).
  exists y, m, d. repeat split; lia.
Qed.

(** X13. Two timestamps get the same date string exactly when they fall on
    the same UTC day, so two trades go to the same bucket, and to the same
    partition file, exactly when they are of the same day. *)
Theorem dateStr_same_day (ms ms' : Z) :
  dateStr ms = dateStr ms' <-> unix_day ms = unix_day ms'.
Proof.
  split; [|intros H; unfold dateStr; rewrite H; reflexivity].
  intros Heq.
  destruct (dateStr_civil ms) as (y & m & d & Hc & Hm & Hd & Hs).
  destruct (dateStr_civil ms') as (y' & m' & d' & Hc' & Hm' & Hd' & Hs').
  rewrite Hs, Hs' in Heq.
  assert (Hlen : String.length (appendInt y 4)
                 = String.length (appendInt y' 4)).
  { apply (f_equal String.length) in Heq.
    rewrite !string_length_append in Heq. cbn [String.length] in Heq.
    rewrite !string_length_append in Heq. cbn [String.length] in Heq.
    rewrite !(appendInt_two_chars m Hm), !(appendInt_two_chars d Hd),
      !(appendInt_two_chars m' Hm'), !(appendInt_two_chars d' Hd') in Heq.
    lia. }
  destruct (string_append_inj _ _ _ _ Hlen Heq) as [Hy Hrest].
  injection Hrest as Hrest.
  destruct (string_append_inj _ _ _ _
    (eq_trans (appendInt_two_chars m Hm)
       (eq_sym (appendInt_two_chars m' Hm'))) Hrest) as [Hmm Hdd].
  injection Hdd as Hdd.
  assert (Hparse : forall a b w, appendInt a w = appendInt b w -> a = b).
  { intros a b w H. pose proof (parse_appendInt a w) as Ha.
    rewrite H, parse_appendInt in Ha. congruence. }
  apply Hparse in Hy, Hmm, Hdd. subst y' m' d'.
  apply civil_from_days_inj. congruence.
Qed.

Lemma dateStr_same_day_witness :
  dateStr 1700000000000 = dateStr 1700003600000
  /\ unix_day 1700000000000 = unix_day 1700003600000.
Proof.
  assert (H : dateStr 1700000000000 = dateStr 1700003600000) by reflexivity.
  split; [exact H|].
  apply (proj1 (dateStr_same_day 1700000000000 1700003600000) H).
Defined.

(** ** More on the worker *)

Lemma partition_path_inj_date symbol d d' :
  partition_path symbol d = partition_path symbol d' -> d = d'.
Proof.
  unfold partition_path. intros H.
  apply (string_append_inj symbol symbol) in H as [_ H]; [|reflexivity].
  injection H as H.
  assert (Hlen : String.length d = String.length d').
  { apply (f_equal String.length) in H.
    rewrite !string_length_append in H. lia. }
  apply (string_append_inj _ _ _ _ Hlen H).
Qed.

Lemma partition_path_inj_symbol s s' d d' :
  no_slash s = true -> no_slash s' = true ->
  partition_path s d = partition_path s' d' -> s = s'.
Proof.
  unfold partition_path. revert s'.
  induction s as [|c s IH]; intros [|c' s'] Hs Hs' H.
  - reflexivity.
  - simpl in H, Hs'. injection H as <- _. discriminate.
  - simpl in H, Hs. injection H as -> _. discriminate.
  - simpl in H, Hs, Hs'. injection H as -> H.
    apply andb_true_iff in Hs as [_ Hs]. apply andb_true_iff in Hs' as [_ Hs'].
    f_equal. apply (IH s' Hs Hs' H).
Qed.

Lemma own_path_disjoint s s' p :
  s <> s' -> no_slash s = true -> no_slash s' = true ->
  own_path s p -> ~ own_path s' p.
Proof.
  intros Hne Hs Hs' [d ->] [d' Heq].
  apply Hne. apply (partition_path_inj_symbol s s' d d' Hs Hs' Heq).
Qed.

Lemma save_partitions_cons symbol date records parts w :
  save_partitions symbol ((date, records) :: parts) w
  = save_partitions symbol parts
      (saved (partition_path symbol date)
         (fst (saveToCSV (hd no_faults (os_script w))
                 (partition_path symbol date) records (files w)))
         (snd (saveToCSV (hd no_faults (os_script w))
                 (partition_path symbol date) records (files w)))
         w).
Proof.
  cbn [save_partitions]. destruct (saveToCSV _ _ _ _). reflexivity.
Qed.

Section WorkerFiles.

Variable json_decode : string -> option (list AggTrade).
Variable symbol : string.

(** A path is left as it was or is one of the worker's own. *)
Lemma save_partitions_touches parts w p :
  files (save_partitions symbol parts w) !! p = files w !! p
  \/ own_path symbol p.
Proof.
  revert w. induction parts as [|[date records] parts IH]; intros w.
  - left. reflexivity.
  - rewrite save_partitions_cons.
    destruct (decide (p = partition_path symbol date)) as [->|Hne].
    + right. exists date. reflexivity.
    + destruct (IH (saved (partition_path symbol date)
        (fst (saveToCSV (hd no_faults (os_script w))
                (partition_path symbol date) records (files w)))
        (snd (saveToCSV (hd no_faults (os_script w))
                (partition_path symbol date) records (files w))) w))
        as [Heq|Hown]; [|right; exact Hown].
      left. rewrite Heq. cbn [saved files].
      apply saveToCSV_other_path, Hne.
Qed.

Lemma worker_loop_touches net w p :
  files (worker_loop json_decode symbol net w) !! p = files w !! p
  \/ own_path symbol p.
Proof.
  revert w. induction net as [|r net IH]; intros w.
  - left. reflexivity.
  - destruct (page_of_cases json_decode r)
      as [(e & Hp & _) | [(Hp & _) | (first & tl & Hp & _)]].
    + rewrite (worker_loop_error _ _ _ _ _ _ Hp).
      destruct (IH (sent (fetch_request symbol (fromId w)) w)) as [Heq|Hown];
        [left; exact Heq | right; exact Hown].
    + rewrite (worker_loop_empty _ _ _ _ _ Hp). left. reflexivity.
    + rewrite (worker_loop_page _ _ _ _ _ _ _ Hp).
      match goal with |- context [worker_loop _ _ net ?w'] =>
        destruct (IH w') as [Heq|Hown] end; [|right; exact Hown].
      rewrite Heq. cbn [advanced files].
      apply (save_partitions_touches _
        (sent (fetch_request symbol (fromId w)) w) p).
Qed.

Lemma processSymbol_touches mkdir_ok net faults
    (fs : gmap string (list (list string))) p :
  files (processSymbol json_decode symbol mkdir_ok net faults fs) !! p
  = fs !! p
  \/ own_path symbol p.
Proof.
  unfold processSymbol. destruct mkdir_ok; [|left; reflexivity].
  apply worker_loop_touches.
Qed.

(** What [saveToCSV] does to a file and what it returns depend on that
    file alone. *)
Lemma saveToCSV_local faults filePath records
    (fs fs' : gmap string (list (list string))) :
  fs !! filePath = fs' !! filePath ->
  snd (saveToCSV faults filePath records fs)
  = snd (saveToCSV faults filePath records fs')
  /\ fst (saveToCSV faults filePath records fs) !! filePath
     = fst (saveToCSV faults filePath records fs') !! filePath.
Proof.
  intros Heq. unfold saveToCSV, isNewFile. rewrite Heq.
  destruct (open_fails faults); [auto|].
  destruct (write_fails faults); simpl; rewrite !lookup_insert_eq; auto.
Qed.

Lemma control_eq w w' :
  control w = control w' <->
  status w = status w' /\ fromId w = fromId w' /\ requests w = requests w'
  /\ os_script w = os_script w' /\ save_errors w = save_errors w'.
Proof. unfold control. split; [intros [=]; auto | intros (-> & -> & -> & -> & ->); reflexivity]. Qed.

(** Two workers that differ in their files only, and agree on the files of
    [symbol] and on [p], still do after the buckets are saved. *)
Lemma save_partitions_local parts w w' p :
  control w = control w' ->
  (forall q, own_path symbol q -> files w !! q = files w' !! q) ->
  files w !! p = files w' !! p ->
  control (save_partitions symbol parts w)
  = control (save_partitions symbol parts w')
  /\ (forall q, own_path symbol q ->
        files (save_partitions symbol parts w) !! q
        = files (save_partitions symbol parts w') !! q)
  /\ files (save_partitions symbol parts w) !! p
     = files (save_partitions symbol parts w') !! p.
Proof.
  revert w w'. induction parts as [|[date records] parts IH];
    intros w w' Hc Hown Hp.
  - auto.
  - rewrite !save_partitions_cons.
    apply control_eq in Hc as (Hst & Hid & Hreq & Hos & Herr).
    assert (Hfile : files w !! partition_path symbol date
                    = files w' !! partition_path symbol date)
      by (apply Hown; exists date; reflexivity).
    rewrite <- Hos.
    destruct (saveToCSV_local (hd no_faults (os_script w))
      (partition_path symbol date) records (files w) (files w') Hfile)
      as [Hsnd Hfst].
    assert (Hat : forall q, files w !! q = files w' !! q ->
      fst (saveToCSV (hd no_faults (os_script w))
             (partition_path symbol date) records (files w)) !! q
      = fst (saveToCSV (hd no_faults (os_script w))
             (partition_path symbol date) records (files w')) !! q).
    { intros q Hq.
      destruct (decide (q = partition_path symbol date)) as [->|Hne];
        [exact Hfst|].
      rewrite !saveToCSV_other_path by exact Hne. exact Hq. }
    apply IH.
    + apply control_eq. unfold saved.
      cbn [status fromId requests os_script save_errors].
      rewrite Hsnd, Hst, Hid, Hreq, Herr, Hos. auto.
    + intros q Hq. cbn [saved files]. apply Hat, Hown, Hq.
    + cbn [saved files]. apply Hat, Hp.
Qed.

Lemma worker_loop_local net w w' p :
  control w = control w' ->
  (forall q, own_path symbol q -> files w !! q = files w' !! q) ->
  files w !! p = files w' !! p ->
  control (worker_loop json_decode symbol net w)
  = control (worker_loop json_decode symbol net w')
  /\ (forall q, own_path symbol q ->
        files (worker_loop json_decode symbol net w) !! q
        = files (worker_loop json_decode symbol net w') !! q)
  /\ files (worker_loop json_decode symbol net w) !! p
     = files (worker_loop json_decode symbol net w') !! p.
Proof.
  revert w w'. induction net as [|r net IH]; intros w w' Hc Hown Hp.
  - auto.
  - pose proof Hc as Hc'.
    apply control_eq in Hc' as (Hst & Hid & Hreq & Hos & Herr).
    assert (Hsent : control (sent (fetch_request symbol (fromId w)) w)
                  = control (sent (fetch_request symbol (fromId w')) w')).
    { apply control_eq. unfold sent.
      cbn [status fromId requests os_script save_errors].
      repeat split; congruence. }
    destruct (page_of_cases json_decode r)
      as [(e & Hpage & _) | [(Hpage & _) | (first & tl & Hpage & _)]].
    + rewrite !(worker_loop_error _ _ _ _ _ _ Hpage).
      apply IH; [exact Hsent | exact Hown | exact Hp].
    + rewrite !(worker_loop_empty _ _ _ _ _ Hpage).
      split; [|split; [exact Hown | exact Hp]].
      apply control_eq. unfold finished, sent.
      cbn [status fromId requests os_script save_errors].
      repeat split; congruence.
    + rewrite !(worker_loop_page _ _ _ _ _ _ _ Hpage).
      destruct (save_partitions_local
        (map_to_list (groupTradesByDate (first :: tl)))
        (sent (fetch_request symbol (fromId w)) w)
        (sent (fetch_request symbol (fromId w')) w') p Hsent Hown Hp)
        as (Hc2 & Hown2 & Hp2).
      apply IH; [|exact Hown2 | exact Hp2].
      apply control_eq in Hc2 as (Hst2 & Hid2 & Hreq2 & Hos2 & Herr2).
      apply control_eq. unfold advanced.
      cbn [status fromId requests os_script save_errors].
      repeat split; congruence.
Qed.

Lemma processSymbol_local mkdir_ok net faults
    (fs fs' : gmap string (list (list string))) p :
  (forall q, own_path symbol q -> fs !! q = fs' !! q) ->
  fs !! p = fs' !! p ->
  control (processSymbol json_decode symbol mkdir_ok net faults fs)
  = control (processSymbol json_decode symbol mkdir_ok net faults fs')
  /\ files (processSymbol json_decode symbol mkdir_ok net faults fs) !! p
     = files (processSymbol json_decode symbol mkdir_ok net faults fs') !! p.
Proof.
  intros Hown Hp. unfold processSymbol. destruct mkdir_ok; [|auto].
  match goal with |- context [worker_loop _ _ net ?a] =>
    match goal with |- context [worker_loop _ _ net ?b] =>
      lazymatch b with a => fail | _ =>
        destruct (worker_loop_local net a b p) as (Hc & _ & Hfiles) end end end;
    auto.
Qed.

End WorkerFiles.

Section WorkerProgress.

Variable json_decode : string -> option (list AggTrade).
Variable symbol : string.



(** The cursor is just past the last trade fetched. *)
Lemma worker_loop_cursor net w :
  fromId (worker_loop json_decode symbol net w)
  = match last (fetched json_decode net) with
    | None => fromId w
    | Some lastTrade => wrap64 (TradeId lastTrade + 1)
    end.
Proof.
  revert w. induction net as [|r net IH]; intros w; [reflexivity|].
  cbn [fetched].
  destruct (page_of_cases json_decode r)
    as [(e & Hpage & _) | [(Hpage & _) | (first & tl & Hpage & _)]];
    rewrite Hpage.
  - rewrite (worker_loop_error _ _ _ _ _ _ Hpage), IH. reflexivity.
  - rewrite (worker_loop_empty _ _ _ _ _ Hpage). reflexivity.
  - rewrite (worker_loop_page _ _ _ _ _ _ _ Hpage), IH.
    cbn [advanced fromId]. rewrite last_app.
    destruct (last (fetched json_decode net)); [reflexivity|].
    rewrite last_cons_default. reflexivity.
Qed.

End WorkerProgress.


(** X15. The cursor of a worker is always just past the last trade it has
    fetched: after any outcomes it is the id of the last record of the
    last non-empty page plus one, in [int64], and 0 while no trade has
    been fetched. *)
Theorem cursor_past_last_fetched
    (json_decode : string -> option (list AggTrade)) (symbol : string)
    (net : list DoResult) (faults : list OsFaults)
    (fs : gmap string (list (list string))) :
  fromId (processSymbol json_decode symbol true net faults fs)
  = match last (fetched json_decode net) with
    | None => 0
    | Some lastTrade => wrap64 (TradeId lastTrade + 1)
    end.
Proof. unfold processSymbol. apply worker_loop_cursor. Qed.

(** X16. A worker writes to the partition files of its own directory and
    to nothing else: a path that is not [symbol/date.csv] for some date
    holds after the run what it held before, whatever the source returns
    and whatever fails. *)
Theorem worker_keeps_to_its_directory
    (json_decode : string -> option (list AggTrade)) (symbol : string)
    (mkdir_ok : bool) (net : list DoResult) (faults : list OsFaults)
    (fs : gmap string (list (list string))) (p : string) :
  ~ own_path symbol p ->
  files (processSymbol json_decode symbol mkdir_ok net faults fs) !! p
  = fs !! p.
Proof.
  intros Hother.
  destruct (processSymbol_touches json_decode symbol mkdir_ok net faults fs p)
    as [Heq|Hown]; [exact Heq | contradiction].
Qed.

Lemma worker_keeps_to_its_directory_witness :
  ~ own_path "ETHUSDT" "ETHBTC/2023-11-14.csv"
  /\ files (processSymbol scenario_decode "ETHUSDT" true scenario_net []
              (<["ETHBTC/2023-11-14.csv" := [header]]> ∅))
       !! "ETHBTC/2023-11-14.csv"
     = (<["ETHBTC/2023-11-14.csv" := [header]]> ∅
          : gmap string (list (list string))) !! "ETHBTC/2023-11-14.csv".
Proof.
  assert (H : ~ own_path "ETHUSDT" "ETHBTC/2023-11-14.csv").
  { intros [d Hd]. discriminate. }
  split; [exact H|].
  apply (worker_keeps_to_its_directory scenario_decode "ETHUSDT" true
    scenario_net [] _ "ETHBTC/2023-11-14.csv" H).
Defined.

Lemma processSymbol_commute
    (json_decode : string -> option (list AggTrade)) (s1 s2 : string)
    (ok1 ok2 : bool) (net1 net2 : list DoResult)
    (faults1 faults2 : list OsFaults)
    (fs : gmap string (list (list string))) :
  s1 <> s2 -> no_slash s1 = true -> no_slash s2 = true ->
  control (processSymbol json_decode s2 ok2 net2 faults2
             (files (processSymbol json_decode s1 ok1 net1 faults1 fs)))
  = control (processSymbol json_decode s2 ok2 net2 faults2 fs)
  /\ control (processSymbol json_decode s1 ok1 net1 faults1
                (files (processSymbol json_decode s2 ok2 net2 faults2 fs)))
     = control (processSymbol json_decode s1 ok1 net1 faults1 fs)
  /\ files (processSymbol json_decode s2 ok2 net2 faults2
              (files (processSymbol json_decode s1 ok1 net1 faults1 fs)))
     = files (processSymbol json_decode s1 ok1 net1 faults1
                (files (processSymbol json_decode s2 ok2 net2 faults2 fs))).
Proof.
  intros Hne Hs1 Hs2.
  set (w1 := processSymbol json_decode s1 ok1 net1 faults1 fs).
  set (w2 := processSymbol json_decode s2 ok2 net2 faults2 fs).
  assert (H1 : forall q, own_path s2 q -> files w1 !! q = fs !! q).
  { intros q Hq.
    destruct (processSymbol_touches json_decode s1 ok1 net1 faults1 fs q)
      as [Heq|Hown]; [exact Heq|].
    destruct (own_path_disjoint s1 s2 q Hne Hs1 Hs2 Hown Hq). }
  assert (H2 : forall q, own_path s1 q -> files w2 !! q = fs !! q).
  { intros q Hq.
    destruct (processSymbol_touches json_decode s2 ok2 net2 faults2 fs q)
      as [Heq|Hown]; [exact Heq|].
    destruct (own_path_disjoint s1 s2 q Hne Hs1 Hs2 Hq Hown). }
  split; [|split].
  - apply (processSymbol_local json_decode s2 ok2 net2 faults2 (files w1) fs
             (partition_path s2 EmptyString) H1).
    apply H1. exists EmptyString. reflexivity.
  - apply (processSymbol_local json_decode s1 ok1 net1 faults1 (files w2) fs
             (partition_path s1 EmptyString) H2).
    apply H2. exists EmptyString. reflexivity.
  - apply map_eq. intros p.
    destruct (processSymbol_touches json_decode s1 ok1 net1 faults1 fs p)
      as [Hp1|Hown1];
    destruct (processSymbol_touches json_decode s2 ok2 net2 faults2 fs p)
      as [Hp2|Hown2].
    + fold w1 in Hp1. fold w2 in Hp2.
      rewrite (proj2 (processSymbol_local json_decode s2 ok2 net2 faults2
                 (files w1) fs p H1 Hp1)).
      rewrite (proj2 (processSymbol_local json_decode s1 ok1 net1 faults1
                 (files w2) fs p H2 Hp2)).
      fold w1 w2. congruence.
    + fold w1 in Hp1.
      rewrite (proj2 (processSymbol_local json_decode s2 ok2 net2 faults2
                 (files w1) fs p H1 Hp1)).
      fold w2.
      destruct (processSymbol_touches json_decode s1 ok1 net1 faults1
                  (files w2) p) as [Heq|Hown1]; [exact (eq_sym Heq)|].
      destruct (own_path_disjoint s1 s2 p Hne Hs1 Hs2 Hown1 Hown2).
    + fold w2 in Hp2.
      rewrite (proj2 (processSymbol_local json_decode s1 ok1 net1 faults1
                 (files w2) fs p H2 Hp2)).
      fold w1.
      destruct (processSymbol_touches json_decode s2 ok2 net2 faults2
                  (files w1) p) as [Heq|Hown2]; [exact Heq|].
      destruct (own_path_disjoint s1 s2 p Hne Hs1 Hs2 Hown1 Hown2).
    + destruct (own_path_disjoint s1 s2 p Hne Hs1 Hs2 Hown1 Hown2).
Qed.

(** X17. Workers for different symbols do not interfere, in whichever
    order they run: for two different symbols without a slash, each worker
    ends in the same state, save errors included, whether it runs on the
    file system as it was or on the one the other worker leaves, and the
    file system after both is the same in either order. *)
Theorem workers_commute
    (json_decode : string -> option (list AggTrade)) (s1 s2 : string)
    (ok1 ok2 : bool) (net1 net2 : list DoResult)
    (faults1 faults2 : list OsFaults)
    (fs : gmap string (list (list string))) :
  s1 <> s2 -> no_slash s1 = true -> no_slash s2 = true ->
  control (processSymbol json_decode s2 ok2 net2 faults2
             (files (processSymbol json_decode s1 ok1 net1 faults1 fs)))
  = control (processSymbol json_decode s2 ok2 net2 faults2 fs)
  /\ control (processSymbol json_decode s1 ok1 net1 faults1
                (files (processSymbol json_decode s2 ok2 net2 faults2 fs)))
     = control (processSymbol json_decode s1 ok1 net1 faults1 fs)
  /\ files (processSymbol json_decode s2 ok2 net2 faults2
              (files (processSymbol json_decode s1 ok1 net1 faults1 fs)))
     = files (processSymbol json_decode s1 ok1 net1 faults1
                (files (processSymbol json_decode s2 ok2 net2 faults2 fs))).
Proof. apply processSymbol_commute. Qed.

Lemma workers_commute_witness :
  "ETHUSDC" <> "ETHUSDT"
  /\ no_slash "ETHUSDC" = true
  /\ no_slash "ETHUSDT" = true
  /\ files (processSymbol scenario_decode "ETHUSDT" true scenario_net []
              (files (processSymbol scenario_decode "ETHUSDC" true
                        scenario_net [] ∅)))
     = files (processSymbol scenario_decode "ETHUSDC" true scenario_net []
                (files (processSymbol scenario_decode "ETHUSDT" true
                          scenario_net [] ∅))).
Proof.
  split; [discriminate|]. split; [reflexivity|]. split; [reflexivity|].
  apply (proj2 (proj2 (workers_commute scenario_decode "ETHUSDC" "ETHUSDT"
    true true scenario_net scenario_net [] [] ∅
    ltac:(discriminate) eq_refl eq_refl))).
Defined.

Lemma extended_nil file : extended file [] = file.
Proof. reflexivity. Qed.

Lemma extended_app file rows rows' :
  extended (extended file rows) rows' = extended file (rows ++ rows').
Proof.
  destruct rows as [|r rows]; [reflexivity|].
  destruct rows' as [|r' rows'].
  - rewrite app_nil_r. destruct file; reflexivity.
  - destruct file as [old|]; simpl; [rewrite <- app_assoc|]; reflexivity.
Qed.

(** One call that meets no fault extends the file by the batch. *)
Lemma saveToCSV_extended filePath records
    (fs : gmap string (list (list string))) :
  records <> [] ->
  saveToCSV no_faults filePath records fs
  = (<[filePath := default [] (extended (fs !! filePath) records)]> fs, None)
  /\ fst (saveToCSV no_faults filePath records fs) !! filePath
     = extended (fs !! filePath) records.
Proof.
  intros Hne. destruct records as [|r records]; [contradiction|].
  destruct (fs !! filePath) as [old|] eqn:Hfile.
  - rewrite (saveToCSV_existing _ _ _ _ Hfile). cbn [fst extended default].
    rewrite lookup_insert_eq. auto.
  - rewrite (saveToCSV_fresh _ _ _ Hfile). cbn [fst extended default].
    rewrite lookup_insert_eq. auto.
Qed.

Section WorkerContents.

Variable json_decode : string -> option (list AggTrade).
Variable symbol : string.

(** Saving the buckets of a page without a fault extends the file of each
    date by its bucket and leaves the files of the other dates alone. *)
Lemma save_partitions_extended parts w d :
  os_script w = [] ->
  NoDup (parts.*1) ->
  (forall date rows, (date, rows) ∈ parts -> rows <> []) ->
  os_script (save_partitions symbol parts w) = []
  /\ save_errors (save_partitions symbol parts w) = save_errors w
  /\ (forall rows,
        (d, rows) ∈ parts ->
        files (save_partitions symbol parts w) !! partition_path symbol d
        = extended (files w !! partition_path symbol d) rows)
  /\ ((forall rows, (d, rows) ∉ parts) ->
      files (save_partitions symbol parts w) !! partition_path symbol d
      = files w !! partition_path symbol d).
Proof.
  revert w. induction parts as [|[date records] parts IH];
    intros w Hos Hnodup Hrows.
  - split; [exact Hos|]. split; [reflexivity|]. split.
    + intros rows Hin. inversion Hin.
    + reflexivity.
  - rewrite save_partitions_cons, Hos. cbn [hd].
    assert (Hrec : records <> [])
      by (apply (Hrows date); left).
    destruct (saveToCSV_extended (partition_path symbol date) records
                (files w) Hrec) as [Hsave Hfile].
    rewrite Hsave. cbn [fst snd].
    rewrite fmap_cons in Hnodup. apply NoDup_cons in Hnodup as [Hfresh Hnodup].
    cbn [fst] in Hfresh.
    set (w' := saved (partition_path symbol date) _ None w).
    destruct (IH w') as (Hos' & Herr' & Hin' & Hout').
    { unfold w'. cbn [saved os_script]. rewrite Hos. reflexivity. }
    { exact Hnodup. }
    { intros date' rows' Hin. apply (Hrows date' rows'). right. exact Hin. }
    split; [exact Hos'|]. split; [rewrite Herr'; reflexivity|]. split.
    + intros rows Hin. apply elem_of_cons in Hin as [Heq|Hin].
      * injection Heq as -> ->. rewrite Hout'.
        -- unfold w'. cbn [saved files]. rewrite lookup_insert_eq.
           destruct (extended (files w !! partition_path symbol date) records)
             eqn:Hext; [reflexivity|].
           destruct records; [contradiction|].
           destruct (files w !! partition_path symbol date); discriminate.
        -- intros rows' Hin. apply Hfresh.
           apply list_elem_of_fmap. exists (date, rows'). auto.
      * rewrite (Hin' rows Hin). f_equal. unfold w'. cbn [saved files].
        apply lookup_insert_ne. intros Hpath.
        apply partition_path_inj_date in Hpath. subst date.
        apply Hfresh. apply list_elem_of_fmap. exists (d, rows). auto.
    + intros Hnone. rewrite Hout'.
      * unfold w'. cbn [saved files]. apply lookup_insert_ne. intros Hpath.
        apply partition_path_inj_date in Hpath. subst date.
        apply (Hnone records). left.
      * intros rows Hin. apply (Hnone rows). right. exact Hin.
Qed.

Lemma save_page_extended page w d :
  os_script w = [] ->
  os_script (save_partitions symbol
               (map_to_list (groupTradesByDate page)) w) = []
  /\ save_errors (save_partitions symbol
                    (map_to_list (groupTradesByDate page)) w)
     = save_errors w
  /\ files (save_partitions symbol
              (map_to_list (groupTradesByDate page)) w)
       !! partition_path symbol d
     = extended (files w !! partition_path symbol d)
         (record_of <$> filter (fun t => dateStr (Timestamp t) = d) page).
Proof.
  intros Hos.
  destruct (save_partitions_extended
    (map_to_list (groupTradesByDate page)) w d Hos)
    as (Hos' & Herr' & Hin & Hout).
  { apply NoDup_fst_map_to_list. }
  { intros date rows Hin. apply elem_of_map_to_list in Hin.
    apply (groupTradesByDate_lookup_Some page date rows Hin). }
  split; [exact Hos'|]. split; [exact Herr'|].
  rewrite <- groupTradesByDate_bucket.
  destruct (groupTradesByDate page !! d) as [rows|] eqn:Hd.
  - apply Hin, elem_of_map_to_list, Hd.
  - cbn [default]. rewrite extended_nil. apply Hout.
    intros rows Hin'. apply elem_of_map_to_list in Hin'. congruence.
Qed.

Lemma worker_loop_contents net w d :
  os_script w = [] ->
  save_errors (worker_loop json_decode symbol net w) = save_errors w
  /\ files (worker_loop json_decode symbol net w) !! partition_path symbol d
     = extended (files w !! partition_path symbol d)
         (record_of <$> filter (fun t => dateStr (Timestamp t) = d)
                          (fetched json_decode net)).
Proof.
  revert w. induction net as [|r net IH]; intros w Hos.
  - cbn [fetched worker_loop]. rewrite filter_nil. auto.
  - cbn [fetched].
    destruct (page_of_cases json_decode r)
      as [(e & Hpage & _) | [(Hpage & _) | (first & tl & Hpage & _)]];
      rewrite Hpage.
    + rewrite (worker_loop_error _ _ _ _ _ _ Hpage).
      apply (IH (sent (fetch_request symbol (fromId w)) w) Hos).
    + rewrite (worker_loop_empty _ _ _ _ _ Hpage). rewrite filter_nil. auto.
    + rewrite (worker_loop_page _ _ _ _ _ _ _ Hpage).
      destruct (save_page_extended (first :: tl)
        (sent (fetch_request symbol (fromId w)) w) d Hos)
        as (Hos' & Herr' & Hfiles').
      match goal with |- context [worker_loop _ _ net ?w'] =>
        destruct (IH w' Hos') as [Herr Hfiles] end.
      rewrite Herr, Hfiles. cbn [advanced files save_errors].
      rewrite Herr', Hfiles'. cbn [sent files save_errors].
      rewrite extended_app, filter_app, fmap_app. auto.
Qed.

End WorkerContents.

(** X18. On a file system that works, a worker leaves in the partition
    file of each day the rows of all the trades of that day that it has
    fetched, in the order fetched, after what the file held before; a file
    that did not exist starts with the header, and the file of a day
    without fetched trades is not touched. No save error is reported. *)
Theorem worker_file_contents
    (json_decode : string -> option (list AggTrade)) (symbol : string)
    (net : list DoResult) (fs : gmap string (list (list string)))
    (d : string) :
  files (processSymbol json_decode symbol true net [] fs)
    !! partition_path symbol d
  = extended (fs !! partition_path symbol d)
      (record_of <$> filter (fun t => dateStr (Timestamp t) = d)
                       (fetched json_decode net))
  /\ save_errors (processSymbol json_decode symbol true net [] fs) = [].
Proof.
  unfold processSymbol.
  match goal with |- context [worker_loop _ _ net ?w] =>
    destruct (worker_loop_contents json_decode symbol net w d eq_refl)
      as [Herr Hfiles] end.
  split; [exact Hfiles | exact Herr].
Qed.

Section Retries.

Variable json_decode : string -> option (list AggTrade).
Variable symbol : string.

Lemma save_partitions_outcome parts w w' :
  outcome w = outcome w' ->
  outcome (save_partitions symbol parts w)
  = outcome (save_partitions symbol parts w').
Proof.
  revert w w'. induction parts as [|[date records] parts IH]; intros w w' H.
  - exact H.
  - rewrite !save_partitions_cons. apply IH.
    unfold outcome in H. injection H as Hst Hid Hfiles Hos Herr.
    unfold outcome, saved.
    cbn [status fromId files os_script save_errors].
    rewrite Hst, Hid, Hfiles, Hos, Herr. reflexivity.
Qed.

(** Failed fetches leave no trace but the requests sent. *)
Lemma worker_loop_retries net w w' :
  outcome w = outcome w' ->
  outcome (worker_loop json_decode symbol net w)
  = outcome (worker_loop json_decode symbol
               (List.filter (fetch_ok json_decode) net) w').
Proof.
  revert w w'. induction net as [|r net IH]; intros w w' H; [exact H|].
  assert (Hfields : status w = status w' /\ fromId w = fromId w'
    /\ files w = files w' /\ os_script w = os_script w'
    /\ save_errors w = save_errors w')
    by (unfold outcome in H; injection H; auto).
  destruct Hfields as (Hst & Hid & Hfiles & Hos & Herr).
  cbn [List.filter]. unfold fetch_ok at 1.
  destruct (page_of_cases json_decode r)
    as [(e & Hpage & _) | [(Hpage & _) | (first & tl & Hpage & _)]];
    rewrite Hpage.
  - rewrite (worker_loop_error _ _ _ _ _ _ Hpage). apply IH.
    unfold outcome, sent. cbn [status fromId files os_script save_errors].
    congruence.
  - rewrite !(worker_loop_empty _ _ _ _ _ Hpage).
    unfold outcome, finished, sent.
    cbn [status fromId files os_script save_errors]. congruence.
  - rewrite !(worker_loop_page _ _ _ _ _ _ _ Hpage). apply IH.
    assert (Hsent : outcome (sent (fetch_request symbol (fromId w)) w)
                  = outcome (sent (fetch_request symbol (fromId w')) w')).
    { unfold outcome, sent. cbn [status fromId files os_script save_errors].
      congruence. }
    pose proof (save_partitions_outcome
      (map_to_list (groupTradesByDate (first :: tl))) _ _ Hsent) as Hsaved.
    unfold outcome in Hsaved. injection Hsaved as Hst2 Hid2 Hf2 Hos2 Herr2.
    unfold outcome, advanced.
    cbn [status fromId files os_script save_errors]. congruence.
Qed.

End Retries.

(** X19. Retries are transparent: a worker that meets failed fetches among
    its outcomes ends with the same status, cursor, files and save errors
    as a worker that meets the successful outcomes alone; the failures
    only add requests. *)
Theorem retries_are_transparent
    (json_decode : string -> option (list AggTrade)) (symbol : string)
    (mkdir_ok : bool) (net : list DoResult) (faults : list OsFaults)
    (fs : gmap string (list (list string))) :
  outcome (processSymbol json_decode symbol mkdir_ok net faults fs)
  = outcome (processSymbol json_decode symbol mkdir_ok
               (List.filter (fetch_ok json_decode) net) faults fs)
  /\ (length (requests (processSymbol json_decode symbol mkdir_ok
                          (List.filter (fetch_ok json_decode) net) faults fs))
      <= length (requests (processSymbol json_decode symbol mkdir_ok
                             net faults fs)))%nat.
Proof.
  split.
  - unfold processSymbol. destruct mkdir_ok; [|reflexivity].
    apply worker_loop_retries. reflexivity.
  - unfold processSymbol. destruct mkdir_ok; [|reflexivity].
    set (w0 := {| status := RUNNING; fromId := 0; requests := [];
                  files := fs; os_script := faults; save_errors := [] |}).
    assert (Hgen : forall net w w',
      (length (requests w') <= length (requests w))%nat ->
      (length (requests (worker_loop json_decode symbol
                           (List.filter (fetch_ok json_decode) net) w'))
       <= length (requests (worker_loop json_decode symbol net w)))%nat).
    { clear. induction net as [|r net IH]; intros w w' Hle; [exact Hle|].
      cbn [List.filter]. unfold fetch_ok at 1.
      destruct (page_of_cases json_decode r)
        as [(e & Hpage & _) | [(Hpage & _) | (first & tl & Hpage & _)]];
        rewrite Hpage.
      - rewrite (worker_loop_error _ _ _ _ _ _ Hpage). apply IH.
        cbn [sent requests]. rewrite length_app. simpl. lia.
      - rewrite !(worker_loop_empty _ _ _ _ _ Hpage).
        cbn [finished sent requests]. rewrite !length_app. simpl. lia.
      - rewrite !(worker_loop_page _ _ _ _ _ _ _ Hpage). apply IH.
        cbn [advanced requests].
        destruct (save_partitions_keeps symbol
          (map_to_list (groupTradesByDate (first :: tl)))
          (sent (fetch_request symbol (fromId w)) w)) as (_ & _ & ->).
        destruct (save_partitions_keeps symbol
          (map_to_list (groupTradesByDate (first :: tl)))
          (sent (fetch_request symbol (fromId w')) w')) as (_ & _ & ->).
        cbn [sent requests]. rewrite !length_app. simpl. lia. }
    apply Hgen. lia.
Qed.

Lemma run_workers_cons json_decode mkdir_of net_of faults_of s order
    (fs : gmap string (list (list string))) :
  run_workers json_decode mkdir_of net_of faults_of (s :: order) fs
  = run_workers json_decode mkdir_of net_of faults_of order
      (files (processSymbol json_decode s (mkdir_of s) (net_of s)
                (faults_of s) fs)).
Proof. reflexivity. Qed.

Lemma run_workers_Permutation json_decode mkdir_of net_of faults_of
    (order order' : list string) :
  order ≡ₚ order' ->
  Forall (fun s => no_slash s = true) order ->
  forall fs : gmap string (list (list string)),
    run_workers json_decode mkdir_of net_of faults_of order fs
    = run_workers json_decode mkdir_of net_of faults_of order' fs.
Proof.
  induction 1 as [|s l l' Hperm IH|s s' l|l l' l'' Hperm1 IH1 Hperm2 IH2];
    intros Hall fs.
  - reflexivity.
  - rewrite !run_workers_cons. apply IH.
    apply Forall_cons in Hall as [_ Hall]. exact Hall.
  - rewrite !run_workers_cons.
    apply Forall_cons in Hall as [Hs' Hall].
    apply Forall_cons in Hall as [Hs _].
    destruct (decide (s = s')) as [->|Hne]; [reflexivity|].
    f_equal.
    apply (processSymbol_commute json_decode s' s (mkdir_of s') (mkdir_of s)
      (net_of s') (net_of s) (faults_of s') (faults_of s) fs);
      [congruence | exact Hs' | exact Hs].
  - rewrite (IH1 Hall fs). apply IH2.
    rewrite <- Hperm1. exact Hall.
Qed.

(** X20. The order in which the workers of [main] run does not matter to
    the files: run one after the other on one file system, in any order of
    the three symbols, whatever each worker's source returns and whichever
    of its writes fail, they leave the same file system. *)
Theorem main_order_irrelevant
    (json_decode : string -> option (list AggTrade))
    (mkdir_of : string -> bool) (net_of : string -> list DoResult)
    (faults_of : string -> list OsFaults) (order : list string)
    (fs : gmap string (list (list string))) :
  order ≡ₚ symbols ->
  run_workers json_decode mkdir_of net_of faults_of order fs
  = run_workers json_decode mkdir_of net_of faults_of symbols fs.
Proof.
  intros Hperm. apply run_workers_Permutation; [exact Hperm|].
  rewrite Hperm. unfold symbols. repeat constructor.
Qed.

Lemma main_order_irrelevant_witness :
  ["ETHBTC"; "ETHUSDC"; "ETHUSDT"] ≡ₚ symbols
  /\ run_workers scenario_decode (fun _ => true) (fun _ => scenario_net)
       (fun _ => []) ["ETHBTC"; "ETHUSDC"; "ETHUSDT"] ∅
     = run_workers scenario_decode (fun _ => true) (fun _ => scenario_net)
         (fun _ => []) symbols ∅.
Proof.
  assert (H : ["ETHBTC"; "ETHUSDC"; "ETHUSDT"] ≡ₚ symbols).
  { unfold symbols.
    apply (Permutation_cons_app ["ETHUSDC"; "ETHUSDT"] []). reflexivity. }
  split; [exact H|].
  apply (main_order_irrelevant scenario_decode (fun _ => true)
    (fun _ => scenario_net) (fun _ => []) _ ∅ H).
Defined.
